(** * flights-path: the directed graph engine and the path synthesizer

    A shallow embedding of [pkg/graph] (graph.go, traits.go, directed.go,
    paths.go) and of [SearchController.Search] and [calculate], followed
    by the properties the design document states about them and by
    further properties of the code.

    Conventions.
    - A Go method with a pointer receiver [d *directed] is a computation
      in the monad [M]: it takes the graph, returns the graph and either
      a value or an [error].
    - A Go [map] is a [gmap]; a [map[K]bool] used as a set is a [gset].
    - The order in which [range] walks a map is not specified by Go.  It
      is a parameter: a [Sched] gives, for the n-th unordered iteration of
      a call, a code from which [shuffle] builds the order.
    - A loop whose trip count is not a syntactic bound runs on fuel; the
      fuel handed to it is shown to be enough. *)

From Stdlib Require Import Ascii.
From stdpp Require Import gmap strings list sorting relations.

Set Default Proof Using "Type*".
Set Warnings "-clear-no-such-hyp".

(** ** Unordered iteration *)

(** [insert_at i x l] puts [x] before position [i] of [l]. *)
Definition insert_at {A} (i : nat) (x : A) (l : list A) : list A :=
  take i l ++ x :: drop i l.

(** [shuffle code l] is a rearrangement of [l]; the empty code leaves [l]
    as it is. *)
Fixpoint shuffle {A} (code : list nat) (l : list A) {struct l} : list A :=
  match l with
  | [] => []
  | x :: l' =>
      match code with
      | [] => x :: l'
      | c :: code' => insert_at (c mod S (length l')) x (shuffle code' l')
      end
  end.

(** The code used by the n-th unordered iteration of one call. *)
Definition Sched := nat → list nat.

(** The schedule under which every map is walked in the order of
    [map_to_list]. *)
Definition in_order : Sched := λ _, [].

(** The rest of a schedule after [n] iterations. *)
Definition after (n : nat) (sched : Sched) : Sched := λ i, sched (n + i).

(** [for k := range m]: the keys of [m], in the scheduled order. *)
Definition range_keys `{Countable K} {V} (code : list nat) (m : gmap K V) : list K :=
  shuffle code (map_to_list m).*1.

(** ** graph.go: errors, edges *)

Section graph.
Context `{Countable K} {T : Type}.

(** The package's error values, and [fmt.Errorf] with one [%w] operand:
    the format, the [%v] operands and the wrapped error.  The last two
    are no Go values: [Panic] stands for a run-time panic and
    [ErrLoopBound] for a loop that used up its fuel.  Neither arises in a
    state the operations of the graph produce. *)
Inductive error :=
  | ErrVertexNotFound
  | ErrVertexAlreadyExists
  | ErrEdgeNotFound
  | ErrEdgeAlreadyExists
  | ErrEdgeCreatesCycle
  | ErrVertexHasEdges
  | Errorf (format : string) (args : list K) (wrapped : error)
  | Panic (what : string)
  | ErrLoopBound.

(** [errors.Is(err, target)] for a sentinel [target] and an error that
    is not nil. *)
Fixpoint errors_Is (err : error) (target : error → bool) : bool :=
  target err ||
  match err with
  | Errorf _ _ wrapped => errors_Is wrapped target
  | _ => false
  end.

Definition is_ErrEdgeNotFound (e : error) : bool :=
  match e with ErrEdgeNotFound => true | _ => false end.

Record Edge (A : Type) := mkEdge { Source : A; Target : A }.
Global Arguments mkEdge {_} _ _.
Global Arguments Source {_} _.
Global Arguments Target {_} _.

(** ** traits.go *)

Record Traits := mkTraits {
  IsDirected : bool;
  IsAcyclic : bool;
  PreventCycles : bool
}.

Definition Directed (t : Traits) : Traits :=
  mkTraits true (IsAcyclic t) (PreventCycles t).

Definition Acyclic (t : Traits) : Traits :=
  mkTraits (IsDirected t) true (PreventCycles t).

(** The option [PreventCycles()]; the field of [Traits] has that name. *)
Definition PreventCyclesOpt (t : Traits) : Traits :=
  let t := Acyclic t in mkTraits (IsDirected t) (IsAcyclic t) true.

(** ** The store *)

(** Modelled from the spec: the in-memory [Store] (store.go is not part
    of the sources).  Section 3 and 4.1 of the design: it owns the mapping
    hash to vertex and the mapping (source, target) to edge. *)
Record memoryStore := mkStore {
  vertices : gmap K T;
  edges : gmap (K * K) (Edge K)
}.

(** What a call returns: a value with a nil error, or an error. *)
Inductive res (A : Type) :=
  | Ok (a : A)
  | Err (e : error).
Global Arguments Ok {_} _.
Global Arguments Err {_} _.

(** ** directed.go: the graph *)

Record directed := mkDirected {
  hash : T → K;
  traits : Traits;
  store : memoryStore
}.

(** A method on [*directed]. *)
Definition M (A : Type) : Type := directed → directed * res A.

Definition ret {A} (a : A) : M A := λ d, (d, Ok a).
Definition fail {A} (e : error) : M A := λ d, (d, Err e).
Definition bind {A B} (m : M A) (f : A → M B) : M B :=
  λ d, match m d with
       | (d', Ok a) => f a d'
       | (d', Err e) => (d', Err e)
       end.
(** [v, err := m] with [err] inspected by the caller. *)
Definition attempt {A} (m : M A) : M (res A) :=
  λ d, let '(d', r) := m d in (d', Ok r).
(** [if err != nil { return fmt.Errorf(format, args..., err) }]. *)
Definition wrapping {A} (format : string) (args : list K) (m : M A) : M A :=
  λ d, match m d with
       | (d', Ok a) => (d', Ok a)
       | (d', Err e) => (d', Err (Errorf format args e))
       end.
Definition get_store : M memoryStore := λ d, (d, Ok (store d)).
Definition get_traits : M Traits := λ d, (d, Ok (traits d)).
Definition get_hash : M (T → K) := λ d, (d, Ok (hash d)).
Definition put_store (s : memoryStore) : M unit :=
  λ d, (mkDirected (hash d) (traits d) s, Ok tt).

Global Instance M_ret : MRet M := @ret.
Global Instance M_bind : MBind M := λ A B f m, bind m f.

(** Modelled from the spec: [Store.AddVertex], design 4.1: fails with
    VertexAlreadyExists if the hash is present. *)
Definition store_AddVertex (k : K) (value : T) : M unit :=
  s ← get_store;
  match vertices s !! k with
  | Some _ => fail ErrVertexAlreadyExists
  | None => put_store (mkStore (<[k := value]> (vertices s)) (edges s))
  end.

(** Modelled from the spec: [Store.Vertex], design 4.1: the value, or
    VertexNotFound. *)
Definition store_Vertex (k : K) : M T :=
  s ← get_store;
  match vertices s !! k with
  | Some v => ret v
  | None => fail ErrVertexNotFound
  end.

(** Some edge of the store has [k] as its source or as its target. *)
Definition has_edges (s : memoryStore) (k : K) : bool :=
  bool_decide (Exists (λ e, e.1 = k ∨ e.2 = k) (map_to_list (edges s)).*1).

(** Modelled from the spec: [Store.RemoveVertex], design 4.1: fails with
    VertexHasEdges if any edge references the hash, else VertexNotFound
    if it is absent. *)
Definition store_RemoveVertex (k : K) : M unit :=
  s ← get_store;
  if has_edges s k then fail ErrVertexHasEdges
  else match vertices s !! k with
       | None => fail ErrVertexNotFound
       | Some _ => put_store (mkStore (delete k (vertices s)) (edges s))
       end.

(** Modelled from the spec: [Store.AddEdge], design 4.1: fails with
    VertexNotFound if either endpoint is absent, EdgeAlreadyExists if the
    pair exists. *)
Definition store_AddEdge (source target : K) (edge : Edge K) : M unit :=
  s ← get_store;
  match vertices s !! source, vertices s !! target with
  | Some _, Some _ =>
      match edges s !! (source, target) with
      | Some _ => fail ErrEdgeAlreadyExists
      | None =>
          put_store (mkStore (vertices s) (<[(source, target) := edge]> (edges s)))
      end
  | _, _ => fail ErrVertexNotFound
  end.

(** Modelled from the spec: [Store.Edge], design 4.1: fails with
    EdgeNotFound. *)
Definition store_Edge (source target : K) : M (Edge K) :=
  s ← get_store;
  match edges s !! (source, target) with
  | Some e => ret e
  | None => fail ErrEdgeNotFound
  end.

(** Modelled from the spec: [Store.RemoveEdge], design 4.1. *)
Definition store_RemoveEdge (source target : K) : M unit :=
  s ← get_store;
  put_store (mkStore (vertices s) (delete (source, target) (edges s))).

(** Modelled from the spec: [Store.ListVertices], design 4.1: an
    unordered full snapshot of the hashes. *)
Definition store_ListVertices (code : list nat) : M (list K) :=
  s ← get_store; ret (range_keys code (vertices s)).

(** Modelled from the spec: [Store.ListEdges], design 4.1: an unordered
    full snapshot of the edges. *)
Definition store_ListEdges (code : list nat) : M (list (Edge K)) :=
  s ← get_store; ret (shuffle code (map_to_list (edges s)).*2).

(** Modelled from the spec: the operations the design lists for the
    Store do not include CreatesCycle, so the type assertion in
    [createsCycle] finds no fast path. *)
Definition store_CreatesCycle : option (K → K → M bool) := None.

Definition newDirected (hash : T → K) (traits : Traits) (store : memoryStore)
    : directed :=
  mkDirected hash traits store.

(** Modelled from the spec: [newMemoryStore], a store that holds
    nothing. *)
Definition newMemoryStore : memoryStore := mkStore ∅ ∅.

(** The options are applied in order to the zero [Traits]. *)
Definition NewWithStore (hash : T → K) (store : memoryStore)
    (options : list (Traits → Traits)) : directed :=
  newDirected hash
    (foldl (λ p option, option p) (mkTraits false false false) options) store.

Definition New (hash : T → K) (options : list (Traits → Traits)) : directed :=
  NewWithStore hash newMemoryStore options.

Definition AddVertex (value : T) : M unit :=
  h ← get_hash; store_AddVertex (h value) value.

Definition Vertex (k : K) : M T := store_Vertex k.

Definition RemoveVertex (k : K) : M unit := store_RemoveVertex k.

(** The method [Edge]; the type of edges has that name. *)
Definition GetEdge (sourceHash targetHash : K) : M (Edge T) :=
  _ ← store_Edge sourceHash targetHash;
  sourceVertex ← store_Vertex sourceHash;
  targetVertex ← store_Vertex targetHash;
  ret (mkEdge sourceVertex targetVertex).

Definition Edges (code : list nat) : M (list (Edge K)) := store_ListEdges code.

Definition RemoveEdge (source target : K) : M unit :=
  _ ← GetEdge source target;
  wrapping "failed to remove edge from %v to %v: %w" [source; target]
    (store_RemoveEdge source target).

(** [m[vertex] = make(map[K]Edge[K])] for every vertex. *)
Definition empty_buckets (vs : list K) : gmap K (gmap K (Edge K)) :=
  foldl (λ m vertex, <[vertex := ∅]> m) ∅ vs.

(** [m[edge.Source][edge.Target] = edge] for every edge.  The bucket
    [m[edge.Source]] must be there: Go panics on a store into a nil map. *)
Fixpoint fill_buckets (m : gmap K (gmap K (Edge K))) (es : list (Edge K))
    : option (gmap K (gmap K (Edge K))) :=
  match es with
  | [] => Some m
  | edge :: es =>
      match m !! Source edge with
      | Some bucket =>
          fill_buckets (<[Source edge := <[Target edge := edge]> bucket]> m) es
      | None => None
      end
  end.

Definition AdjacencyMap (sched : Sched) : M (gmap K (gmap K (Edge K))) :=
  vs ← wrapping "failed to list vertices: %w" [] (store_ListVertices (sched 0));
  es ← wrapping "failed to list edges: %w" [] (store_ListEdges (sched 1));
  match fill_buckets (empty_buckets vs) es with
  | Some m => ret m
  | None => fail (Panic "assignment to entry in nil map")
  end.

(** Here a missing bucket [m[edge.Target]] is made before the store. *)
Definition PredecessorMap (sched : Sched) : M (gmap K (gmap K (Edge K))) :=
  vs ← wrapping "failed to list vertices: %w" [] (store_ListVertices (sched 0));
  es ← wrapping "failed to list edges: %w" [] (store_ListEdges (sched 1));
  ret (foldl (λ m edge,
               <[Target edge := <[Source edge := edge]> (m !!! Target edge)]> m)
             (empty_buckets vs) es).

(** ** paths.go: CreatesCycle *)

(** The number of entries of all buckets.  A walk that marks what it
    visits pushes no more hashes than this after the first, so it pops at
    most one more and then finds its stack empty. *)
Definition buckets_size (m : gmap K (gmap K (Edge K))) : nat :=
  sum_list_with (λ kb, size kb.2) (map_to_list m).

(** The loop [for len(stack) > 0].  The stack is kept with its top at
    the head, so appending the keys of a bucket in range order puts them
    reversed in front.  [i] counts the buckets walked so far. *)
Fixpoint CreatesCycle_loop (fuel : nat) (sched : Sched) (i : nat)
    (predecessorMap : gmap K (gmap K (Edge K))) (target : K)
    (stack : list K) (visited : gset K) : option bool :=
  match fuel with
  | 0 => None
  | S fuel =>
      match stack with
      | [] => Some false
      | currentHash :: stack =>
          if decide (currentHash ∈ visited)
          then CreatesCycle_loop fuel sched i predecessorMap target stack visited
          else if decide (currentHash = target) then Some true
          else
            CreatesCycle_loop fuel sched (S i) predecessorMap target
              (reverse (range_keys (sched i) (predecessorMap !!! currentHash))
                 ++ stack)
              ({[currentHash]} ∪ visited)
      end
  end.

Definition CreatesCycle (sched : Sched) (source target : K) : M bool :=
  _ ← wrapping "could not get vertex with hash %v: %w" [source] (Vertex source);
  _ ← wrapping "could not get vertex with hash %v: %w" [target] (Vertex target);
  if decide (source = target) then ret true
  else
    predecessorMap ← wrapping "failed to get predecessor map: %w" []
                       (PredecessorMap sched);
    match CreatesCycle_loop (2 + buckets_size predecessorMap) (after 2 sched) 0
            predecessorMap target [source] ∅ with
    | Some b => ret b
    | None => fail ErrLoopBound
    end.

(** ** directed.go: AddEdge *)

Definition createsCycle (sched : Sched) (source target : K) : M bool :=
  match store_CreatesCycle with
  | Some cc => cc source target
  | None => CreatesCycle sched source target
  end.

Definition addEdge (sourceHash targetHash : K) (edge : Edge K) : M unit :=
  store_AddEdge sourceHash targetHash edge.

Definition AddEdge (sched : Sched) (sourceHash targetHash : K) : M unit :=
  _ ← wrapping "source vertex %v: %w" [sourceHash] (store_Vertex sourceHash);
  _ ← wrapping "target vertex %v: %w" [targetHash] (store_Vertex targetHash);
  r ← attempt (GetEdge sourceHash targetHash);
  if match r with Ok _ => true | Err err => negb (errors_Is err is_ErrEdgeNotFound) end
  then fail ErrEdgeAlreadyExists
  else
    t ← get_traits;
    _ ← (if PreventCycles t then
           createsCycle ← wrapping "check for cycles: %w" []
                            (createsCycle sched sourceHash targetHash);
           if createsCycle : bool then fail ErrEdgeCreatesCycle else ret tt
         else ret tt);
    addEdge sourceHash targetHash (mkEdge sourceHash targetHash).

(** ** directed.go: Size, edgesAreEqual *)

(** [for _, outEdges := range outEdges { size += len(outEdges) }] is the
    third unordered iteration of the call.  A panic of [AdjacencyMap] is
    no error value and passes through as it is. *)
Definition Size (sched : Sched) : M nat :=
  λ d, match AdjacencyMap sched d with
       | (d, Ok outEdges) =>
           (d, Ok (foldl (λ size kb, size + base.size (kb.2 : gmap K (Edge K))) 0
                     (shuffle (sched 2) (map_to_list outEdges))))
       | (d, Err (Panic what)) => (d, Err (Panic what))
       | (d, Err err) => (d, Err (Errorf "failed to get adjacency map: %w" [] err))
       end.

Definition edgesAreEqual (a b : Edge T) : M bool :=
  h ← get_hash;
  let aSourceHash := h (Source a) in
  let aTargetHash := h (Target a) in
  let bSourceHash := h (Source b) in
  let bTargetHash := h (Target b) in
  ret (bool_decide (aSourceHash = bSourceHash)
       && bool_decide (aTargetHash = bTargetHash)).

End graph.

Global Arguments error : clear implicits.
Global Arguments res : clear implicits.
Global Arguments memoryStore _ {_ _} _.
Global Arguments directed _ {_ _} _.
Global Arguments M _ {_ _} _ _.

(** ** Notions about a graph *)

Section graph_notions.
Context `{Countable K} {T : Type}.
Implicit Types (m pm : gmap K (gmap K (Edge K))) (es : list (Edge K))
  (visited : gset K) (d : directed K T) (sched : Sched).

(** The second loop of [AdjacencyMap] (outer key the source) and of
    [PredecessorMap] (outer key the target). *)
Definition bucket_fold (outer inner : Edge K → K) m es :=
  foldl (λ m edge, <[outer edge := <[inner edge := edge]> (m !!! outer edge)]> m)
        m es.

(** The entries of the buckets of hashes not yet visited. *)
Definition weight m visited : nat :=
  sum_list_with (λ kb, if decide (kb.1 ∈ visited) then 0 else size kb.2)
                (map_to_list m).

(** [x → y] is an edge the store lists. *)
Definition has_edge d (x y : K) : Prop :=
  ∃ k, edges (store d) !! k = Some (mkEdge x y).

(** There is a directed path of one or more edges. *)
Definition path d : relation K := tc (has_edge d).

(** No vertex is on a directed cycle. *)
Definition acyclic d : Prop := ∀ x, ¬ path d x x.

(** [k] is the hash of a vertex of the graph. *)
Definition has_vertex d (k : K) : Prop := is_Some (vertices (store d) !! k).

(** The maps [AdjacencyMap] and [PredecessorMap] return. *)
Definition adjacency_map d : gmap K (gmap K (Edge K)) :=
  bucket_fold Source Target
    (empty_buckets (range_keys [] (vertices (store d))))
    (map_to_list (edges (store d))).*2.

Definition predecessor_map d : gmap K (gmap K (Edge K)) :=
  bucket_fold Target Source
    (empty_buckets (range_keys [] (vertices (store d))))
    (map_to_list (edges (store d))).*2.

(** [y] is a key of the bucket of [x]. *)
Definition feeds pm (x y : K) : Prop := is_Some ((pm !!! x) !! y).

(** The graph after [d.store.AddEdge] has stored the edge. *)
Definition commit d (source target : K) : directed K T :=
  mkDirected (hash d) (traits d)
    (mkStore (vertices (store d))
             (<[(source, target) := mkEdge source target]> (edges (store d)))).

(** The four mutating operations of the [Graph] interface.  [AddEdge]
    carries the order its cycle check walks the maps in. *)
Inductive op :=
  | OpAddVertex (value : T)
  | OpAddEdge (sched : Sched) (source target : K)
  | OpRemoveVertex (k : K)
  | OpRemoveEdge (source target : K).

Definition run_op (o : op) : M K T unit :=
  match o with
  | OpAddVertex value => AddVertex value
  | OpAddEdge sched source target => AddEdge sched source target
  | OpRemoveVertex k => RemoveVertex k
  | OpRemoveEdge source target => RemoveEdge source target
  end.

(** The graph after a sequence of operations, whether each succeeded
    or returned an error. *)
Definition run_ops (ops : list op) d : directed K T :=
  foldl (λ d o, (run_op o d).1) d ops.

(** What the operations keep true of the store. *)
Record well_formed d : Prop := {
  wf_keyed : ∀ k e, edges (store d) !! k = Some e → e = mkEdge k.1 k.2;
  wf_ends : ∀ x y, has_edge d x y → has_vertex d x ∧ has_vertex d y
}.

(** A cycle-preventing graph in a good state. *)
Record safe d : Prop := {
  safe_traits : PreventCycles (traits d) = true;
  safe_store : well_formed d;
  safe_acyclic : acyclic d
}.

End graph_notions.

Global Arguments op : clear implicits.

(** ** Traversal *)

Section traversal.
Context `{Countable K} {T V : Type}.

(** Modelled from the spec: the loop of [DFS] (traversal.go is not part
    of the sources), design 4.4: pop a hash; if it is unvisited mark it
    visited and call [visit] on the vertex value; stop if the visitor says
    so, else push all adjacent target hashes in the bucket's iteration
    order.  The vertex value is read with [Vertex], whose failure ends the
    traversal with that error.  The visitor is a closure over caller
    state [V]; the state it leaves is returned in every case. *)
Fixpoint DFS_loop (fuel : nat) (sched : Sched) (i : nat)
    (adjacencyMap : gmap K (gmap K (Edge K))) (visit : T → V → V * bool)
    (stack : list K) (visited : gset K) (v : V) (d : directed K T)
    : directed K T * (V * res K unit) :=
  match fuel with
  | 0 => (d, (v, Err ErrLoopBound))
  | S fuel =>
      match stack with
      | [] => (d, (v, Ok tt))
      | currentHash :: stack =>
          if decide (currentHash ∈ visited)
          then DFS_loop fuel sched i adjacencyMap visit stack visited v d
          else
            match Vertex currentHash d with
            | (d, Err e) => (d, (v, Err e))
            | (d, Ok value) =>
                let '(v, stop) := visit value v in
                if stop : bool then (d, (v, Ok tt))
                else
                  DFS_loop fuel sched (S i) adjacencyMap visit
                    (reverse (range_keys (sched i) (adjacencyMap !!! currentHash))
                       ++ stack)
                    ({[currentHash]} ∪ visited) v d
            end
      end
  end.

(** Modelled from the spec: [DFS(g, start, visit)], design 4.4: a walk
    over outgoing edges from [start] with an explicit stack seeded with
    [start] and a fresh visited set. *)
Definition DFS (sched : Sched) (start : K) (visit : T → V → V * bool) (v : V)
    (d : directed K T) : directed K T * (V * res K unit) :=
  match AdjacencyMap sched d with
  | (d, Err e) => (d, (v, Err (Errorf "could not get adjacency map: %w" [] e)))
  | (d, Ok adjacencyMap) =>
      DFS_loop (2 + buckets_size adjacencyMap) (after 2 sched) 0 adjacencyMap
        visit [start] ∅ v d
  end.

End traversal.

(** ** sort.Slice *)

Section sort.
Context {A : Type} (less : A → A → bool).

(** The inner loop of insertion sort: [x] moves left past every element
    it is less than.  The sorted prefix is kept reversed, last element
    first. *)
Fixpoint sift (x : A) (rev_prefix : list A) : list A :=
  match rev_prefix with
  | [] => [x]
  | y :: r => if less x y then y :: sift x r else x :: y :: r
  end.

(** [sort.Slice(data, less)].  Go sorts a short slice by insertion and a
    long one by pattern-defeating quicksort, and promises no stability.
    Insertion stands for both here: for the order [calculate] sorts by,
    the sorted rearrangement of a slice is unique ([sort_Slice_unique]). *)
Definition sort_Slice (data : list A) : list A :=
  reverse (foldl (λ rev_prefix x, sift x rev_prefix) [] data).

(** [a] is not after [b]. *)
Definition not_after (a b : A) : Prop := less b a = false.

End sort.

(** ** controller: calculate *)

(** graph.go: [StringHash]. *)
Definition StringHash (v : string) : string := v.

(** What [calculate] can see of a [context.Context]: whether [ctx.Err()]
    is nil, [context.Canceled] or [context.DeadlineExceeded]. *)
Inductive Context :=
  | ctx_live
  | ctx_canceled
  | ctx_deadline_exceeded.

(** A segment [el] is the pair of the two strings [el[0]] and [el[1]]
    that [calculate] reads. *)
Definition segment : Type := string * string.

(** The [less] closure handed to [sort.Slice]. *)
Definition less (a b : segment) : bool :=
  if String.ltb a.1 b.1 then true
  else if String.ltb b.1 a.1 then false
  else String.ltb a.2 b.2.

(** The first loop: one pass of its body per segment.  [i] is the index
    of [el]; the i-th pass walks maps under [scheds i]. *)
Fixpoint build (scheds : nat → Sched) (i : nat) (segments : list segment)
    : M string string unit :=
  match segments with
  | [] => ret tt
  | el :: segments =>
      let source := el.1 in
      let target := el.2 in
      r ← attempt (Vertex source);
      _ ← (if r is Err _ then AddVertex source else ret tt);
      r ← attempt (Vertex target);
      _ ← (if r is Err _ then AddVertex target else ret tt);
      r ← attempt (GetEdge source target);
      _ ← (if r is Err _ then AddEdge (scheds i) source target else ret tt);
      build scheds (S i) segments
  end.

(** The closure handed to [DFS]: append the value, never stop. *)
Definition collect (value : string) (innerDfs : list string) : list string * bool :=
  (innerDfs ++ [value], false).

(** The second loop.  [dfs] is the longest sequence so far, [printed]
    what [println] has written. *)
Fixpoint longest (scheds : nat → Sched) (i : nat) (segments : list segment)
    (g : directed string string) (dfs : list string) (printed : list (error string))
    : list string * list (error string) :=
  match segments with
  | [] => (dfs, printed)
  | el :: segments =>
      let start := el.1 in
      let '(g, (innerDfs, r)) := DFS (scheds i) start collect [] g in
      let printed := if r is Err err then printed ++ [err] else printed in
      let dfs := if bool_decide (length dfs < length innerDfs) then innerDfs else dfs in
      longest scheds (S i) segments g dfs printed
  end.

(** What a call of [calculate] leaves behind: the caller's slice, the two
    results, and the lines written by [println]. *)
Record outcome := mkOutcome {
  out_segments : list segment;
  out_path : list string;
  out_err : option (error string);
  out_printed : list (error string)
}.

(** [calculate(ctx, segments)].  The passes of the first loop use
    [scheds 0], [scheds 1], ...; the runs of the second loop continue
    from [scheds (len(segments))]. *)
Definition calculate (ctx : Context) (scheds : nat → Sched) (segments : list segment)
    : outcome :=
  let segments := sort_Slice less segments in
  let g := New StringHash [Directed; PreventCyclesOpt] in
  match build scheds 0 segments g with
  | (_, Err err) => mkOutcome segments [] (Some err) []
  | (g, Ok _) =>
      let '(dfs, printed) := longest scheds (length segments) segments g [] [] in
      mkOutcome segments dfs None printed
  end.

(** Every call walks every map in the order of [map_to_list]. *)
Definition ordered : nat → Sched := λ _, in_order.

(** ** controller: Search *)

(** [fmt.Sprintf] for the formats of the package: [%v] prints the next
    operand, a string, as it is, and [%w] the message of the wrapped
    error. *)
Fixpoint Sprintf (format : string) (args : list string) (wrapped : string)
    : string :=
  match format with
  | EmptyString => EmptyString
  | String c rest =>
      match c, rest with
      | "%"%char, String "v"%char rest' =>
          match args with
          | a :: args' => a +:+ Sprintf rest' args' wrapped
          | [] => "%!v(MISSING)" +:+ Sprintf rest' [] wrapped
          end
      | "%"%char, String "w"%char rest' => wrapped +:+ Sprintf rest' args wrapped
      | _, _ => String c (Sprintf rest args wrapped)
      end
  end.

(** [err.Error()], with the messages of graph.go.  A panic carries its
    own text; a loop out of fuel has none. *)
Fixpoint Error (err : error string) : string :=
  match err with
  | ErrVertexNotFound => "vertex not found"
  | ErrVertexAlreadyExists => "vertex already exists"
  | ErrEdgeNotFound => "edge not found"
  | ErrEdgeAlreadyExists => "edge already exists"
  | ErrEdgeCreatesCycle => "edge would create a cycle"
  | ErrVertexHasEdges => "vertex has edges"
  | Errorf format args wrapped => Sprintf format args (Error wrapped)
  | Panic what => what
  | ErrLoopBound => ""
  end.

(** The value [Search] hands to [response.WriteJSONResponse]: an
    [ErrorResponse] or a [SearchResponse]. *)
Inductive payload :=
  | ErrorResponse (message : string)
  | SearchResponse (ShortPath FullPath : list string).

(** The one call of [response.WriteJSONResponse] a run of [Search]
    makes: the status and the value. *)
Record reply := mkReply { status : nat; written : payload }.

Definition StatusOK : nat := 200.
Definition StatusBadRequest : nat := 400.

(** [Search(w, r)].  [ReadAll] is what [io.ReadAll(r.Body)] returns: the
    body, or the message of its error.  [Unmarshal] is [json.Unmarshal]
    into [segments]: the segments, each read as the pair of its first two
    strings, or [None] for an error.  A body with a segment of fewer than
    two strings, on which [calculate] indexes out of range, is not
    covered.  The context handed to [calculate] has ten seconds to live. *)
Definition Search (scheds : nat → Sched) (ReadAll : string + string)
    (Unmarshal : string → option (list segment)) : reply :=
  match ReadAll with
  | inr err => mkReply StatusBadRequest (ErrorResponse err)
  | inl body =>
      if bool_decide (String.length body = 0)
      then mkReply StatusBadRequest (ErrorResponse "empty payload")
      else
        match Unmarshal body with
        | None => mkReply StatusBadRequest (ErrorResponse "wrong payload")
        | Some segments =>
            if bool_decide (length segments = 0)
            then mkReply StatusBadRequest (ErrorResponse "wrong segments in payload")
            else
              let out := calculate ctx_live scheds segments in
              match out_err out with
              | Some err => mkReply StatusBadRequest (ErrorResponse (Error err))
              | None =>
                  let result := out_path out in
                  match result with
                  | [] => mkReply StatusBadRequest (ErrorResponse "can't find route")
                  | first :: rest =>
                      mkReply StatusOK
                        (SearchResponse [first; List.last rest first] result)
                  end
              end
        end
  end.

(** ** Notions about calculate *)

Section repetitions.
Context {A : Type} `{EqDecision A}.

(** A list with each run of equal neighbours cut down to one. *)
Fixpoint squeeze (l : list A) : list A :=
  match l with
  | [] => []
  | x :: r =>
      match r with
      | [] => [x]
      | y :: _ => if decide (x = y) then squeeze r else x :: squeeze r
      end
  end.

(** [stutter b l]: [l] is [b] with some elements repeated in place. *)
Inductive stutter : list A → list A → Prop :=
  | stutter_nil : stutter [] []
  | stutter_cons x b l : stutter b l → stutter (x :: b) (x :: l)
  | stutter_dup x b l : stutter b (x :: l) → stutter b (x :: x :: l).

End repetitions.

Section notions.
Implicit Types (g d : directed string string) (sched : Sched)
  (scheds : nat → Sched) (el : segment) (segments : list segment)
  (dfs : list string) (ws : list (list string)).

(** The order the sorted slice is in: by source, and by target among
    segments of one source. *)
Definition lex_le (a b : segment) : Prop :=
  String.ltb a.1 b.1 = true ∨ (a.1 = b.1 ∧ String.leb a.2 b.2 = true).

(** The graph [calculate] starts from. *)
Definition fresh : directed string string :=
  New StringHash [Directed; PreventCyclesOpt].

(** A graph as [calculate] builds it: cycle-preventing, in a good
    state, hashed by [StringHash], every vertex stored under itself. *)
Record built g : Prop := {
  built_safe : safe g;
  built_hash : hash g = StringHash;
  built_values : ∀ k v, vertices (store g) !! k = Some v → v = k
}.

(** The graph after [if _, err := g.Vertex(k); err != nil { g.AddVertex(k) }]. *)
Definition ensure d (k : string) : directed string string :=
  match vertices (store d) !! k with
  | Some _ => d
  | None =>
      mkDirected (hash d) (traits d)
        (mkStore (<[k := k]> (vertices (store d))) (edges (store d)))
  end.

(** One pass of the loop body, with the maps walked in order. *)
Definition step d el : directed string string * res string unit :=
  let d2 := ensure (ensure d el.1) el.2 in
  match edges (store d2) !! (el.1, el.2) with
  | Some _ => (d2, Ok tt)
  | None => AddEdge in_order el.1 el.2 d2
  end.

(** The loop, with the maps walked in order. *)
Fixpoint steps d segments : directed string string * res string unit :=
  match segments with
  | [] => (d, Ok tt)
  | el :: segments =>
      match step d el with
      | (d', Ok _) => steps d' segments
      | (d', Err err) => (d', Err err)
      end
  end.

(** The segment is in the graph: both ends and the edge. *)
Definition present d el : Prop :=
  has_vertex d el.1 ∧ has_vertex d el.2
  ∧ is_Some (edges (store d) !! (el.1, el.2)).

(** [d'] has all [d] has. *)
Definition extends d d' : Prop :=
  (∀ x, has_vertex d x → has_vertex d' x)
  ∧ (∀ k e, edges (store d) !! k = Some e → edges (store d') !! k = Some e).

(** The sequence a run of [DFS] leaves in [innerDfs]. *)
Definition walk sched (start : string) g : list string :=
  fst (snd (DFS sched start collect [] g)).

(** The sequences of the runs of the second loop over [segments], the
    first of them walking the maps under [scheds i]. *)
Definition walks scheds (i : nat) segments g : list (list string) :=
  imap (λ j el, walk (scheds (i + j)) el.1 g) segments.

(** The choice the second loop makes among the sequences of its runs:
    the first of the longest. *)
Definition longest_of (walks : list (list string)) dfs : list string :=
  foldl (λ dfs innerDfs,
           if bool_decide (length dfs < length innerDfs) then innerDfs else dfs)
        dfs walks.

(** Two sequences over the same vertices from the same start. *)
Definition same_route (a b : list string) : Prop := a ≡ₚ b ∧ head a = head b.

(** [ws] are sequences of runs from the starts [ss], each as [canon]
    has it, up to [R]. *)
Definition follows (R : relation (list string)) (canon : string → list string)
    (ss : list string) ws : Prop :=
  Forall2 (λ start w, R w (canon start)) ss ws.

(** Every bucket of the adjacency map has at most one entry. *)
Definition is_chain g : Prop :=
  map_Forall (λ _ bucket, size (bucket : gmap string (Edge string)) ≤ 1)
             (adjacency_map g).

Global Instance is_chain_dec g : Decision (is_chain g).
Proof. unfold is_chain. apply _. Defined.


(** The vertices A and B and the edge from A to B. *)
Definition two_airports : list (op string string) :=
  [OpAddVertex "A"; OpAddVertex "B"; OpAddEdge in_order "A" "B"].

(** One of the segments goes from [a] to [b]. *)
Definition flies segments (a b : string) : Prop := (a, b) ∈ segments.

(** Some airport is on a round trip along the segments: a segment from
    an airport to itself, or segments that lead back to where they
    started. *)
Definition circular segments : Prop := ∃ a, tc (flies segments) a a.

(** [b] is [a] or can be reached from it along the segments. *)
Definition reaches segments : relation string := rtc (flies segments).

(** The legs of the itinerary through [stops], one from each stop to
    the next. *)
Definition legs (stops : list string) : list segment := zip stops (tail stops).

End notions.

(** * Properties *)

(** Unfolds the plumbing of [M]. *)
Ltac run_M :=
  unfold mbind, M_bind, mret, M_ret, bind, ret, fail, attempt, wrapping,
    get_store, get_traits, get_hash, put_store; cbv beta iota zeta.

(** ** Unordered iteration *)

Lemma insert_at_Permutation {A} (i : nat) (x : A) (l : list A) :
  insert_at i x l ≡ₚ x :: l.
Proof.
  unfold insert_at. rewrite <- Permutation_middle.
  by rewrite take_drop.
Qed.

Lemma shuffle_Permutation {A} (code : list nat) (l : list A) :
  shuffle code l ≡ₚ l.
Proof.
  revert code. induction l as [|x l IH]; intros [|c code]; simpl; try done.
  rewrite insert_at_Permutation. by constructor.
Qed.

Lemma shuffle_nil {A} (l : list A) : shuffle [] l = l.
Proof. by destruct l. Qed.

(** Every rearrangement is the shuffle of some code: a statement about
    all schedules is a statement about all orders of iteration. *)
Lemma shuffle_complete {A} (l l' : list A) :
  l ≡ₚ l' → ∃ code, shuffle code l = l'.
Proof.
  revert l'. induction l as [|x l IH]; intros l' Hperm.
  - apply Permutation_nil_l in Hperm as ->. exists (@nil nat). apply shuffle_nil.
  - assert (x ∈ l') as Hx by (rewrite <- Hperm; by left).
    apply list_elem_of_split in Hx as (l1 & l2 & ->).
    apply Permutation_cons_app_inv in Hperm.
    destruct (IH _ Hperm) as [code Hcode].
    exists (length l1 :: code). cbn [shuffle]. rewrite Hcode.
    assert (length l1 < S (length l)) as Hlt.
    { rewrite (Permutation_length Hperm), length_app. lia. }
    rewrite Nat.mod_small by done. unfold insert_at.
    by rewrite take_app_length, drop_app_length.
Qed.

Lemma shuffle_short {A} (code : list nat) (l : list A) :
  length l ≤ 1 → shuffle code l = l.
Proof.
  destruct l as [|x [|y l]]; simpl; intros Hl; [done| |lia].
  destruct code as [|c code]; [done|].
  unfold insert_at. by destruct (c `mod` 1).
Qed.

Section range.
Context `{Countable K} {V : Type}.
Implicit Types (m : gmap K V) (code : list nat).

Lemma range_keys_Permutation code m : range_keys code m ≡ₚ (map_to_list m).*1.
Proof. apply shuffle_Permutation. Qed.

Lemma elem_of_range_keys code m k : k ∈ range_keys code m ↔ is_Some (m !! k).
Proof.
  rewrite range_keys_Permutation, list_elem_of_fmap. split.
  - intros [[k' v] [-> Hin]]. apply elem_of_map_to_list in Hin. by exists v.
  - intros [v Hv]. exists (k, v). split; [done|]. by apply elem_of_map_to_list.
Qed.

Lemma NoDup_range_keys code m : NoDup (range_keys code m).
Proof. rewrite range_keys_Permutation. apply NoDup_fst_map_to_list. Qed.

Lemma length_range_keys code m : length (range_keys code m) = size m.
Proof.
  rewrite range_keys_Permutation, length_fmap. apply length_map_to_list.
Qed.

Lemma range_keys_short code m : size m ≤ 1 → range_keys code m = range_keys [] m.
Proof.
  intros Hm. unfold range_keys. rewrite shuffle_nil. apply shuffle_short.
  by rewrite length_fmap, length_map_to_list.
Qed.

End range.

(** ** The bucket maps *)

Section buckets.
Context `{Countable K}.
Implicit Types (m : gmap K (gmap K (Edge K))) (es : list (Edge K)).

Lemma no_bucket m (x : K) : m !! x = None → m !!! x = ∅.
Proof. intros Hx. by rewrite lookup_total_alt, Hx. Qed.

Lemma empty_buckets_from m (vs : list K) (x : K) :
  foldl (λ m vertex, <[vertex := ∅]> m) m vs !! x
  = if decide (x ∈ vs) then Some ∅ else m !! x.
Proof.
  revert m. induction vs as [|v vs IH]; intros m; cbn [foldl].
  - rewrite decide_False; [done|apply not_elem_of_nil].
  - rewrite IH. destruct (decide (x ∈ vs)) as [Hx|Hx].
    + rewrite decide_True; [done|by right].
    + destruct (decide (v = x)) as [->|Hne].
      * rewrite lookup_insert_eq, decide_True; [done|by left].
      * rewrite lookup_insert_ne, decide_False; [done| |done].
        intros [->|?]%elem_of_cons; done.
Qed.

Lemma empty_buckets_lookup (vs : list K) (x : K) :
  empty_buckets vs !! x = if decide (x ∈ vs) then Some ∅ else None.
Proof. unfold empty_buckets. by rewrite empty_buckets_from, lookup_empty. Qed.

Lemma empty_buckets_total (vs : list K) (x : K) : empty_buckets vs !!! x = ∅.
Proof.
  rewrite lookup_total_alt, empty_buckets_lookup. by case_decide.
Qed.

Section fold.
Context (outer inner : Edge K → K).
Context (keyed : ∀ e e', outer e = outer e' → inner e = inner e' → e = e').

Lemma bucket_fold_entry m es x y e :
  (bucket_fold outer inner m es !!! x) !! y = Some e ↔
  (e ∈ es ∧ outer e = x ∧ inner e = y) ∨
  ((m !!! x) !! y = Some e ∧ ∀ e', e' ∈ es → ¬ (outer e' = x ∧ inner e' = y)).
Proof.
  revert m. induction es as [|e0 es IH]; intros m; simpl.
  - split; [intros He; right; split; [done|]|].
    + by intros e' ?%elem_of_nil.
    + intros [[?%elem_of_nil _]|[? _]]; done.
  - rewrite IH. clear IH.
    destruct (decide (outer e0 = x ∧ inner e0 = y)) as [[Hx Hy]|Hne].
    + rewrite Hx, lookup_total_insert_eq. subst y. rewrite lookup_insert_eq.
      split.
      * intros [(Hin & Ho & Hi)|[[= <-] Hno]]; left.
        -- split; [by right|done].
        -- split; [by left|done].
      * intros [(Hin & Ho & Hi)|[_ Hno]].
        -- apply elem_of_cons in Hin as [->|Hin]; [|left; done].
           destruct (decide (Exists (λ e', outer e' = x ∧ inner e' = inner e0) es))
             as [(e' & Hin' & Ho' & Hi')%Exists_exists|Hnone].
           ++ left. assert (e' = e0) as -> by (apply keyed; congruence). done.
           ++ right. split; [done|]. intros e' Hin' ?. apply Hnone.
              apply Exists_exists. by exists e'.
        -- exfalso. apply (Hno e0); [by left|done].
    + assert ((<[outer e0 := <[inner e0 := e0]> (m !!! outer e0)]> m !!! x) !! y
              = (m !!! x) !! y) as ->.
      { destruct (decide (outer e0 = x)) as [Hx|Hx].
        - rewrite Hx, lookup_total_insert_eq, lookup_insert_ne; [done|].
          intros Hy. by apply Hne.
        - by rewrite lookup_total_insert_ne. }
      split.
      * intros [(Hin & Ho & Hi)|[Hm Hno]].
        -- left. split; [by right|done].
        -- right. split; [done|]. intros e' [->|Hin']%elem_of_cons; [done|].
           by apply Hno.
      * intros [(Hin & Ho & Hi)|[Hm Hno]].
        -- apply elem_of_cons in Hin as [->|Hin]; [by destruct Hne|]. by left.
        -- right. split; [done|]. intros e' Hin'. apply Hno. by right.
Qed.

Lemma bucket_fold_dom m es x :
  is_Some (bucket_fold outer inner m es !! x) ↔
  is_Some (m !! x) ∨ ∃ e, e ∈ es ∧ outer e = x.
Proof.
  revert m. induction es as [|e0 es IH]; intros m; simpl.
  - split; [by left|]. intros [?|(e & ?%elem_of_nil & _)]; done.
  - rewrite IH. clear IH. destruct (decide (outer e0 = x)) as [Hx|Hx].
    + rewrite Hx, lookup_insert_eq. split; [|by eauto].
      intros _. right. exists e0. split; [by left|done].
    + rewrite lookup_insert_ne by done. split.
      * intros [?|(e & Hin & Ho)]; [by left|]. right. exists e. split; [by right|done].
      * intros [?|(e & Hin & Ho)]; [by left|].
        apply elem_of_cons in Hin as [->|Hin]; [done|]. right. by exists e.
Qed.

(** The map a fold builds depends on which vertices and edges are
    listed, not on the order they are listed in. *)
Lemma bucket_fold_order (vs vs' : list K) es es' :
  vs ≡ₚ vs' → es ≡ₚ es' →
  bucket_fold outer inner (empty_buckets vs) es
  = bucket_fold outer inner (empty_buckets vs') es'.
Proof.
  intros Hvs Hes.
  assert (∀ x y e,
    (bucket_fold outer inner (empty_buckets vs) es !!! x) !! y = Some e ↔
    (bucket_fold outer inner (empty_buckets vs') es' !!! x) !! y = Some e) as Hentry.
  { intros x y e. rewrite !bucket_fold_entry, !empty_buckets_total.
    rewrite !lookup_empty. by setoid_rewrite Hes. }
  apply map_eq. intros x.
  destruct (bucket_fold outer inner (empty_buckets vs) es !! x) as [b|] eqn:Hb;
    destruct (bucket_fold outer inner (empty_buckets vs') es' !! x) as [b'|] eqn:Hb'.
  - f_equal. apply map_eq. intros y. apply option_eq. intros e.
    specialize (Hentry x y e).
    by rewrite !lookup_total_alt, Hb, Hb' in Hentry.
  - exfalso. assert (is_Some (bucket_fold outer inner (empty_buckets vs') es' !! x))
      as [? ?]; [|congruence].
    apply bucket_fold_dom. rewrite empty_buckets_lookup.
    assert (is_Some (bucket_fold outer inner (empty_buckets vs) es !! x)) as Hs
      by (by rewrite Hb).
    apply bucket_fold_dom in Hs. rewrite empty_buckets_lookup in Hs.
    destruct Hs as [Hs|(e & Hin & Ho)].
    + left. case_decide as Hx; [|by destruct Hs]. rewrite decide_True; [done|].
      by rewrite <- Hvs.
    + right. exists e. by rewrite <- Hes.
  - exfalso. assert (is_Some (bucket_fold outer inner (empty_buckets vs) es !! x))
      as [? ?]; [|congruence].
    apply bucket_fold_dom. rewrite empty_buckets_lookup.
    assert (is_Some (bucket_fold outer inner (empty_buckets vs') es' !! x)) as Hs
      by (by rewrite Hb').
    apply bucket_fold_dom in Hs. rewrite empty_buckets_lookup in Hs.
    destruct Hs as [Hs|(e & Hin & Ho)].
    + left. case_decide as Hx; [|by destruct Hs]. rewrite decide_True; [done|].
      by rewrite Hvs.
    + right. exists e. by rewrite Hes.
  - done.
Qed.

End fold.

Lemma fill_buckets_fold m es :
  (∀ e, e ∈ es → is_Some (m !! Source e)) →
  fill_buckets m es = Some (bucket_fold Source Target m es).
Proof.
  revert m. induction es as [|e es IH]; intros m Hsources; [done|].
  simpl. destruct (Hsources e) as [bucket Hbucket]; [by left|].
  rewrite Hbucket, (lookup_total_correct _ _ _ Hbucket). apply IH.
  intros e' He'. destruct (decide (Source e = Source e')) as [->|Hne].
  - by rewrite lookup_insert_eq.
  - rewrite lookup_insert_ne by done. apply Hsources. by right.
Qed.

Lemma Edge_keyed_out (e e' : Edge K) :
  Source e = Source e' → Target e = Target e' → e = e'.
Proof. destruct e, e'; simpl; congruence. Qed.

Lemma Edge_keyed_in (e e' : Edge K) :
  Target e = Target e' → Source e = Source e' → e = e'.
Proof. destruct e, e'; simpl; congruence. Qed.

End buckets.

(** ** How many hashes a walk can push *)

Section weight.
Context `{Countable K}.
Implicit Types (m : gmap K (gmap K (Edge K))) (visited : gset K).

Lemma weight_empty m : weight m ∅ = buckets_size m.
Proof.
  unfold weight, buckets_size. induction (map_to_list m) as [|kb l IH]; [done|].
  simpl. rewrite IH. by rewrite decide_False by set_solver.
Qed.

Lemma weight_insert m visited k b :
  m !! k = None →
  weight (<[k := b]> m) visited
  = (if decide (k ∈ visited) then 0 else size b) + weight m visited.
Proof.
  intros Hk. unfold weight. by rewrite map_to_list_insert.
Qed.

Lemma weight_visit m visited v :
  v ∉ visited → size (m !!! v) + weight m ({[v]} ∪ visited) = weight m visited.
Proof.
  intros Hv. induction m as [|k b m Hk _ IH] using map_first_key_ind.
  - rewrite lookup_total_empty. unfold weight. by rewrite map_to_list_empty.
  - rewrite !weight_insert by done. destruct (decide (k = v)) as [->|Hne].
    + rewrite lookup_total_insert_eq, decide_True, decide_False by set_solver.
      rewrite no_bucket, map_size_empty in IH by done. simpl in *. lia.
    + rewrite lookup_total_insert_ne by done.
      destruct (decide (k ∈ visited)).
      * rewrite decide_True by (apply elem_of_union; by right). simpl. lia.
      * rewrite decide_False by set_solver. lia.
Qed.

End weight.

(** ** Reading the graph *)

Section reading.
Context `{Countable K} {T : Type}.
Implicit Types (d : directed K T) (sched : Sched).

Lemma elem_of_listed_edges d (e : Edge K) :
  e ∈ (map_to_list (edges (store d))).*2 ↔ has_edge d (Source e) (Target e).
Proof.
  rewrite list_elem_of_fmap. unfold has_edge. destruct e as [x y]; simpl. split.
  - intros [[k e] [-> Hin]]. exists k. by apply elem_of_map_to_list.
  - intros [k Hk]. exists (k, mkEdge x y). split; [done|].
    by apply elem_of_map_to_list.
Qed.

(** When every edge starts at a vertex no bucket is missing. *)
Lemma AdjacencyMap_run sched d :
  (∀ x y, has_edge d x y → has_vertex d x) →
  AdjacencyMap sched d = (d, Ok (adjacency_map d)).
Proof.
  intros Hsources.
  unfold AdjacencyMap, adjacency_map, store_ListVertices, store_ListEdges.
  run_M. rewrite fill_buckets_fold.
  - do 2 f_equal. apply (bucket_fold_order Source Target Edge_keyed_out).
    + by rewrite !range_keys_Permutation.
    + apply shuffle_Permutation.
  - intros e He. rewrite shuffle_Permutation in He.
    apply elem_of_listed_edges, Hsources in He.
    rewrite empty_buckets_lookup, decide_True; [done|].
    by apply elem_of_range_keys.
Qed.

Lemma PredecessorMap_run sched d :
  PredecessorMap sched d = (d, Ok (predecessor_map d)).
Proof.
  unfold PredecessorMap, predecessor_map, store_ListVertices, store_ListEdges.
  run_M. do 2 f_equal.
  apply (bucket_fold_order Target Source Edge_keyed_in).
  - by rewrite !range_keys_Permutation.
  - apply shuffle_Permutation.
Qed.

Lemma adjacency_map_entry d x y :
  is_Some ((adjacency_map d !!! x) !! y) ↔ has_edge d x y.
Proof.
  unfold adjacency_map. split.
  - intros [e He].
    apply (bucket_fold_entry Source Target Edge_keyed_out) in He
      as [(Hin & <- & <-)|[He _]].
    + by apply elem_of_listed_edges.
    + by rewrite empty_buckets_total, lookup_empty in He.
  - intros Hxy. exists (mkEdge x y).
    apply (bucket_fold_entry Source Target Edge_keyed_out). left.
    split; [|done]. by apply elem_of_listed_edges.
Qed.

Lemma predecessor_map_entry d x y :
  is_Some ((predecessor_map d !!! y) !! x) ↔ has_edge d x y.
Proof.
  unfold predecessor_map. split.
  - intros [e He].
    apply (bucket_fold_entry Target Source Edge_keyed_in) in He
      as [(Hin & <- & <-)|[He _]].
    + by apply elem_of_listed_edges.
    + by rewrite empty_buckets_total, lookup_empty in He.
  - intros Hxy. exists (mkEdge x y).
    apply (bucket_fold_entry Target Source Edge_keyed_in). left.
    split; [|done]. by apply elem_of_listed_edges.
Qed.

Lemma Vertex_run d k :
  Vertex k d = (d, match vertices (store d) !! k with
                   | Some v => Ok v
                   | None => Err ErrVertexNotFound
                   end).
Proof.
  unfold Vertex, store_Vertex. run_M. by destruct (vertices (store d) !! k).
Qed.

End reading.

(** ** The cycle detector *)

Section detector.
Context `{Countable K}.
Implicit Types (pm : gmap K (gmap K (Edge K))) (visited : gset K)
  (stack : list K) (sched : Sched).

Lemma CreatesCycle_loop_returns fuel sched i pm target stack visited :
  length stack + weight pm visited < fuel →
  is_Some (CreatesCycle_loop fuel sched i pm target stack visited).
Proof.
  revert i stack visited.
  induction fuel as [|fuel IH]; intros i stack visited Hfuel; [lia|].
  destruct stack as [|c stack]; simpl; [by eexists|].
  destruct (decide (c ∈ visited)) as [Hc|Hc].
  - apply IH. simpl in Hfuel. lia.
  - destruct (decide (c = target)); [by eexists|].
    apply IH. rewrite length_app, length_reverse, length_range_keys.
    pose proof (weight_visit pm visited c Hc). simpl in Hfuel. lia.
Qed.

(** A positive answer comes with a chain of buckets from some stacked
    hash to the target. *)
Lemma CreatesCycle_loop_true fuel sched i pm target stack visited :
  CreatesCycle_loop fuel sched i pm target stack visited = Some true →
  ∃ x, x ∈ stack ∧ rtc (feeds pm) x target.
Proof.
  revert i stack visited.
  induction fuel as [|fuel IH]; intros i stack visited; [done|].
  destruct stack as [|c stack]; simpl; [done|].
  destruct (decide (c ∈ visited)) as [Hc|Hc].
  - intros (x & Hx & Hr)%IH. exists x. split; [by right|done].
  - destruct (decide (c = target)) as [->|Hne].
    + intros _. exists target. split; [by left|done].
    + intros (x & Hx & Hr)%IH. apply elem_of_app in Hx as [Hx|Hx].
      * exists c. split; [by left|]. apply rtc_l with x; [|done].
        by apply elem_of_reverse, elem_of_range_keys in Hx.
      * exists x. split; [by right|done].
Qed.

Lemma closed_feeds pm visited x y :
  (∀ v p, v ∈ visited → feeds pm v p → p ∈ visited) →
  x ∈ visited → rtc (feeds pm) x y → y ∈ visited.
Proof.
  intros Hclosed Hx Hr. induction Hr as [|x y z Hxy _ IHr]; [done|].
  apply IHr. by apply (Hclosed x).
Qed.

(** A negative answer: what was visited is closed under [feeds] up to
    the stack, so nothing stacked or visited leads to the target. *)
Lemma CreatesCycle_loop_false fuel sched i pm target stack visited :
  CreatesCycle_loop fuel sched i pm target stack visited = Some false →
  (∀ v p, v ∈ visited → feeds pm v p → p ∈ visited ∨ p ∈ stack) →
  target ∉ visited →
  ∀ x, x ∈ stack ∨ x ∈ visited → ¬ rtc (feeds pm) x target.
Proof.
  revert i stack visited.
  induction fuel as [|fuel IH]; intros i stack visited; [done|].
  destruct stack as [|c stack]; simpl.
  - intros _ Hclosed Htarget x [Hx|Hx]; [by apply elem_of_nil in Hx|].
    intros Hr. apply Htarget. apply (closed_feeds pm visited x); [|done..].
    intros v p Hv Hp. destruct (Hclosed v p Hv Hp) as [?|Hin]; [done|].
    by apply elem_of_nil in Hin.
  - destruct (decide (c ∈ visited)) as [Hc|Hc].
    + intros Hloop Hclosed Htarget x Hx.
      apply (IH _ _ _ Hloop); [|done|].
      * intros v p Hv Hp. destruct (Hclosed v p Hv Hp) as [?|Hin]; [by left|].
        apply elem_of_cons in Hin as [->|?]; [by left|by right].
      * destruct Hx as [Hx|?]; [|by right].
        apply elem_of_cons in Hx as [->|?]; [by right|by left].
    + destruct (decide (c = target)) as [->|Hne]; [done|].
      intros Hloop Hclosed Htarget x Hx.
      apply (IH _ _ _ Hloop).
      * intros v p Hv Hp. apply elem_of_union in Hv as [->%elem_of_singleton|Hv].
        -- right. apply elem_of_app. left.
           by apply elem_of_reverse, elem_of_range_keys.
        -- destruct (Hclosed v p Hv Hp) as [?|Hin]; [left; set_solver|].
           apply elem_of_cons in Hin as [->|?]; [left; set_solver|].
           right. apply elem_of_app. by right.
      * set_solver.
      * destruct Hx as [Hx|?]; [|right; set_solver].
        apply elem_of_cons in Hx as [->|?]; [right; set_solver|].
        left. apply elem_of_app. by right.
Qed.

(** The loop as [CreatesCycle] starts it: it returns, and it returns
    true exactly when the buckets lead from the source to the target. *)
Lemma CreatesCycle_loop_spec sched pm source target :
  ∃ b, CreatesCycle_loop (2 + buckets_size pm) sched 0 pm target [source] ∅
       = Some b
       ∧ (b = true ↔ rtc (feeds pm) source target).
Proof.
  destruct (CreatesCycle_loop_returns (2 + buckets_size pm) sched 0 pm target
              [source] ∅) as [b Hb].
  { rewrite weight_empty. simpl. lia. }
  exists b. split; [done|]. destruct b.
  - split; [|done]. intros _.
    apply CreatesCycle_loop_true in Hb as (x & ->%list_elem_of_singleton & Hr).
    done.
  - split; [done|]. intros Hr. exfalso.
    eapply (CreatesCycle_loop_false _ _ _ _ _ _ _ Hb); [| | |exact Hr].
    + intros v p Hv. by apply not_elem_of_empty in Hv.
    + apply not_elem_of_empty.
    + left. by apply list_elem_of_singleton.
Qed.

End detector.

(** ** CreatesCycle and AddEdge on a graph *)

Section engine.
Context `{Countable K} {T : Type}.
Implicit Types (d : directed K T) (sched : Sched).

Lemma feeds_predecessor_map d x y :
  rtc (feeds (predecessor_map d)) x y ↔ rtc (flip (has_edge d)) x y.
Proof.
  split; (induction 1 as [|a b c Hab _ IH]; [done|]);
    (apply rtc_l with b; [|done]); by apply predecessor_map_entry.
Qed.

Lemma rtc_flip_has_edge d x y : rtc (flip (has_edge d)) x y ↔ rtc (has_edge d) y x.
Proof.
  split.
  - induction 1 as [|a b c Hab _ IH]; [done|]. by apply rtc_r with b.
  - induction 1 as [|a b c Hab _ IH]; [done|]. by apply rtc_r with b.
Qed.

Lemma rtc_path d x y : rtc (has_edge d) x y ↔ x = y ∨ path d x y.
Proof.
  unfold path. split.
  - intros [->|?]%rtc_tc; [by left|by right].
  - intros [->|?]; [done|by apply tc_rtc].
Qed.

(** What [CreatesCycle] returns, whatever the order its walk takes. *)
Lemma CreatesCycle_run d source target :
  has_vertex d source → has_vertex d target →
  ∃ b, (b = true ↔ source = target ∨ path d target source)
       ∧ ∀ sched, CreatesCycle sched source target d = (d, Ok b).
Proof.
  intros [vs Hs] [vt Ht]. destruct (decide (source = target)) as [->|Hne].
  - exists true. split; [by split; [left|]|]. intros sched.
    unfold CreatesCycle. run_M. rewrite Vertex_run, Ht. run_M.
    rewrite Vertex_run, Ht. run_M. by rewrite decide_True.
  - destruct (CreatesCycle_loop_spec in_order (predecessor_map d) source target)
      as (b & _ & Hb).
    exists b. split.
    { rewrite Hb, feeds_predecessor_map, rtc_flip_has_edge, rtc_path.
      split; (intros [?|?]; [left; congruence|by right]). }
    intros sched.
    destruct (CreatesCycle_loop_spec (after 2 sched) (predecessor_map d)
                source target) as (b' & Hloop & Hb').
    assert (b' = b) as -> by (destruct b, b'; naive_solver).
    unfold CreatesCycle. run_M. rewrite Vertex_run, Hs. run_M.
    rewrite Vertex_run, Ht. run_M.
    rewrite decide_False by done. rewrite PredecessorMap_run. run_M.
    by rewrite Hloop.
Qed.

Lemma CreatesCycle_absent d sched source target :
  ¬ (has_vertex d source ∧ has_vertex d target) →
  ∃ k, CreatesCycle sched source target d
       = (d, Err (Errorf "could not get vertex with hash %v: %w" [k]
                    ErrVertexNotFound))
       ∧ ¬ has_vertex d k ∧ (k = source ∨ k = target).
Proof.
  unfold has_vertex. intros Habsent. unfold CreatesCycle. run_M.
  rewrite Vertex_run.
  destruct (vertices (store d) !! source) as [vs|] eqn:Hs; run_M.
  - rewrite Vertex_run.
    destruct (vertices (store d) !! target) as [vt|] eqn:Ht; run_M.
    + destruct Habsent. by split.
    + exists target. rewrite Ht. split; [done|]. split; [|by right].
      by intros [? ?].
  - exists source. rewrite Hs. split; [done|]. split; [|by left]. by intros [? ?].
Qed.

Lemma GetEdge_run d source target :
  has_vertex d source → has_vertex d target →
  ∃ r, GetEdge source target d = (d, r) ∧
       match edges (store d) !! (source, target) with
       | Some _ => ∃ e, r = Ok e
       | None => r = Err ErrEdgeNotFound
       end.
Proof.
  intros [vs Hs] [vt Ht]. unfold GetEdge, store_Edge, store_Vertex. run_M.
  destruct (edges (store d) !! (source, target)); rewrite ?Hs, ?Ht; eauto.
Qed.

Lemma AddEdge_no_source d sched source target :
  ¬ has_vertex d source →
  AddEdge sched source target d
  = (d, Err (Errorf "source vertex %v: %w" [source] ErrVertexNotFound)).
Proof.
  unfold has_vertex. intros Hs%eq_None_not_Some.
  unfold AddEdge, store_Vertex. run_M. by rewrite Hs.
Qed.

Lemma AddEdge_no_target d sched source target :
  has_vertex d source → ¬ has_vertex d target →
  AddEdge sched source target d
  = (d, Err (Errorf "target vertex %v: %w" [target] ErrVertexNotFound)).
Proof.
  unfold has_vertex. intros [vs Hs] Ht%eq_None_not_Some.
  unfold AddEdge, store_Vertex. run_M. by rewrite Hs, Ht.
Qed.

Lemma AddEdge_exists d sched source target :
  has_vertex d source → has_vertex d target →
  is_Some (edges (store d) !! (source, target)) →
  AddEdge sched source target d = (d, Err ErrEdgeAlreadyExists).
Proof.
  intros Hs Ht [e He].
  destruct (GetEdge_run d source target Hs Ht) as (r & Hr & Hmatch).
  rewrite He in Hmatch. destruct Hmatch as [e' ->].
  destruct Hs as [vs Hs], Ht as [vt Ht].
  unfold AddEdge. run_M. unfold store_Vertex at 1 2. run_M.
  by rewrite Hs, Ht, Hr.
Qed.

(** [AddEdge] on a cycle-preventing graph, for a new edge between two
    vertices of the graph. *)
Lemma AddEdge_run d source target :
  PreventCycles (traits d) = true →
  has_vertex d source → has_vertex d target →
  edges (store d) !! (source, target) = None →
  ∃ b, (b = true ↔ source = target ∨ path d target source)
       ∧ ∀ sched, AddEdge sched source target d
                  = if b then (d, Err ErrEdgeCreatesCycle)
                    else (commit d source target, Ok tt).
Proof.
  intros Htraits Hs Ht He.
  destruct (CreatesCycle_run d source target Hs Ht) as (b & Hb & Hcc).
  exists b. split; [done|]. intros sched.
  destruct (GetEdge_run d source target Hs Ht) as (r & Hr & Hmatch).
  rewrite He in Hmatch. subst r.
  destruct Hs as [vs Hs], Ht as [vt Ht].
  unfold AddEdge. run_M. unfold store_Vertex at 1 2. run_M.
  rewrite Hs, Ht, Hr. simpl. rewrite Htraits.
  unfold createsCycle. simpl. rewrite Hcc. destruct b; [done|].
  unfold addEdge, store_AddEdge. run_M. by rewrite Hs, Ht, He.
Qed.

End engine.

(** ** The states of a graph *)

Section states.
Context `{Countable K} {T : Type}.
Implicit Types (d : directed K T) (sched : Sched).

Lemma has_edge_keyed d x y :
  well_formed d → has_edge d x y ↔ is_Some (edges (store d) !! (x, y)).
Proof.
  intros Hwf. split.
  - intros [[a b] Hk]. pose proof (wf_keyed d Hwf _ _ Hk) as [= -> ->]. by eexists.
  - intros [e He]. pose proof (wf_keyed d Hwf _ _ He) as ->. by eexists.
Qed.

Lemma has_edge_commit d source target x y :
  edges (store d) !! (source, target) = None →
  has_edge (commit d source target) x y
  ↔ has_edge d x y ∨ (x = source ∧ y = target).
Proof.
  intros Hnew. unfold has_edge, commit. simpl. split.
  - intros [k Hk]. destruct (decide (k = (source, target))) as [->|Hne].
    + rewrite lookup_insert_eq in Hk. injection Hk as -> ->. by right.
    + rewrite lookup_insert_ne in Hk by done. left. by exists k.
  - intros [[k Hk]|[-> ->]].
    + exists k. rewrite lookup_insert_ne; [done|]. intros <-. congruence.
    + exists (source, target). by rewrite lookup_insert_eq.
Qed.

(** A path through a graph with one more edge is a path of the graph,
    or runs into the new edge and out of it. *)
Lemma path_commit d source target x y :
  edges (store d) !! (source, target) = None →
  path (commit d source target) x y →
  path d x y ∨ (rtc (has_edge d) x source ∧ rtc (has_edge d) target y).
Proof.
  intros Hnew. unfold path.
  induction 1 as [x y Hxy|x y z Hxy _ IH].
  - apply has_edge_commit in Hxy as [?|[-> ->]]; [| |done].
    + left. by apply tc_once.
    + right. split; apply rtc_refl.
  - apply has_edge_commit in Hxy as [Hxy|[-> ->]]; [| |done].
    + destruct IH as [?|[? ?]].
      * left. by apply tc_l with y.
      * right. split; [|done]. by apply rtc_l with y.
    + right. split; [apply rtc_refl|]. destruct IH as [?|[? ?]]; [|done].
      by apply tc_rtc.
Qed.

Lemma acyclic_commit d source target :
  edges (store d) !! (source, target) = None →
  acyclic d → ¬ (source = target ∨ path d target source) →
  acyclic (commit d source target).
Proof.
  intros Hnew Hacyclic Hno x Hx.
  apply path_commit in Hx as [?|[Hxs Htx]]; [by apply (Hacyclic x)| |done].
  apply Hno. assert (rtc (has_edge d) target source) as Hr by (by etrans).
  apply rtc_path in Hr as [->|?]; [by left|by right].
Qed.

Lemma well_formed_commit d source target :
  has_vertex d source → has_vertex d target →
  edges (store d) !! (source, target) = None →
  well_formed d → well_formed (commit d source target).
Proof.
  intros Hs Ht Hnew [Hkeyed Hends]. split.
  - intros k e. unfold commit. simpl.
    destruct (decide (k = (source, target))) as [->|Hne].
    + rewrite lookup_insert_eq. by intros [= <-].
    + rewrite lookup_insert_ne by done. apply Hkeyed.
  - intros x y [?|[-> ->]]%has_edge_commit; [|done..]. by apply Hends.
Qed.

End states.

Section invariant.
Context `{Countable K} {T : Type}.
Implicit Types (d : directed K T) (sched : Sched).

Lemma path_mono d d' x y :
  (∀ a b, has_edge d' a b → has_edge d a b) → path d' x y → path d x y.
Proof.
  intros Hsub. unfold path. induction 1 as [x y Hxy|x y z Hxy _ IH].
  - apply tc_once. by apply Hsub.
  - apply tc_l with y; [by apply Hsub|done].
Qed.

(** Fewer edges and more vertices keep a good state good. *)
Lemma safe_shrink d d' :
  traits d' = traits d →
  (∀ k e, edges (store d') !! k = Some e → edges (store d) !! k = Some e) →
  (∀ x, has_vertex d x → has_vertex d' x) →
  safe d → safe d'.
Proof.
  intros Htraits Hedges Hvertices [Ht [Hkeyed Hends] Hacyclic].
  assert (∀ a b, has_edge d' a b → has_edge d a b) as Hsub.
  { intros a b [k Hk]. exists k. by apply Hedges. }
  split.
  - by rewrite Htraits.
  - split.
    + intros k e He. by apply Hkeyed, Hedges.
    + intros x y Hxy. destruct (Hends x y (Hsub _ _ Hxy)) as [Hx Hy].
      split; by apply Hvertices.
  - intros x Hx. apply (Hacyclic x). by apply (path_mono d d').
Qed.

Lemma has_edges_false d k x y :
  well_formed d → has_edges (store d) k = false → has_edge d x y →
  x ≠ k ∧ y ≠ k.
Proof.
  intros Hwf Hno Hxy. apply (has_edge_keyed d x y Hwf) in Hxy as [e He].
  unfold has_edges in Hno. apply bool_decide_eq_false in Hno.
  assert (¬ (x = k ∨ y = k)) as Hnot; [|by split; intros ->; apply Hnot; eauto].
  intros Hk. apply Hno, Exists_exists. exists (x, y). split; [|done].
  apply list_elem_of_fmap. exists (x, y, e). split; [done|].
  by apply elem_of_map_to_list.
Qed.

Lemma AddVertex_safe value d : safe d → safe (AddVertex value d).1.
Proof.
  intros Hsafe. unfold AddVertex, store_AddVertex. run_M.
  destruct (vertices (store d) !! hash d value) eqn:Hv; [done|]. simpl.
  apply (safe_shrink d); [done..| |done].
  intros x [v Hx]. unfold has_vertex. simpl.
  destruct (decide (hash d value = x)) as [<-|Hne]; [congruence|].
  rewrite lookup_insert_ne by done. by exists v.
Qed.

Lemma RemoveVertex_safe k d : safe d → safe (RemoveVertex k d).1.
Proof.
  intros Hsafe. unfold RemoveVertex, store_RemoveVertex. run_M.
  destruct (has_edges (store d) k) eqn:Hno; [done|].
  destruct (vertices (store d) !! k); [|done]. simpl.
  destruct Hsafe as [Ht Hwf Hacyclic]. split; [done| |].
  - split; [apply (wf_keyed d Hwf)|]. intros x y Hxy.
    assert (has_edge d x y) as Hxy' by done.
    destruct (has_edges_false d k x y Hwf Hno Hxy') as [Hx Hy].
    destruct (wf_ends d Hwf x y Hxy') as [Hvx Hvy].
    unfold has_vertex. simpl. by rewrite !lookup_delete_ne.
  - intros x Hx. apply (Hacyclic x). by apply (path_mono d _ x x) in Hx.
Qed.

Lemma RemoveEdge_safe source target d : safe d → safe (RemoveEdge source target d).1.
Proof.
  intros Hsafe. unfold RemoveEdge, store_RemoveEdge. run_M.
  destruct (GetEdge source target d) as [d' [e|e]] eqn:Hget.
  - assert (d' = d) as ->.
    { revert Hget. unfold GetEdge, store_Edge, store_Vertex. run_M.
      repeat (case_match; run_M); congruence. }
    simpl. apply (safe_shrink d); [done| |done|done].
    intros k e'. simpl. intros [_ ?]%lookup_delete_Some. done.
  - assert (d' = d) as ->; [|done].
    revert Hget. unfold GetEdge, store_Edge, store_Vertex. run_M.
    repeat (case_match; run_M); congruence.
Qed.

Lemma AddEdge_safe sched source target d :
  safe d → safe (AddEdge sched source target d).1.
Proof.
  intros Hsafe. destruct (decide (has_vertex d source)) as [Hs|Hs];
    [|by rewrite AddEdge_no_source].
  destruct (decide (has_vertex d target)) as [Ht|Ht];
    [|by rewrite AddEdge_no_target].
  destruct (edges (store d) !! (source, target)) as [e|] eqn:He;
    [by rewrite AddEdge_exists|].
  destruct (AddEdge_run d source target (safe_traits d Hsafe) Hs Ht He)
    as (b & Hb & ->).
  destruct b; [done|]. simpl. destruct Hsafe as [Htraits Hwf Hacyclic].
  split; [done| |].
  - by apply well_formed_commit.
  - apply acyclic_commit; [done..|]. rewrite <- Hb. done.
Qed.

Lemma run_op_safe o d : safe d → safe (run_op o d).1.
Proof.
  destruct o; simpl;
    auto using AddVertex_safe, AddEdge_safe, RemoveVertex_safe, RemoveEdge_safe.
Qed.

Lemma run_ops_safe ops d : safe d → safe (run_ops ops d).
Proof.
  revert d. induction ops as [|o ops IH]; intros d Hsafe; [done|].
  apply IH. by apply run_op_safe.
Qed.

Lemma New_safe (hash : T → K) options :
  PreventCycles (traits (New hash options)) = true → safe (New hash options).
Proof.
  intros Htraits. split; [done| |].
  - split.
    + intros k e. unfold New. simpl. by rewrite lookup_empty.
    + intros x y [k Hk]. revert Hk. unfold New. simpl. by rewrite lookup_empty.
  - intros x Hx.
    assert (∀ a b, ¬ has_edge (New hash options) a b) as Hnone.
    { intros a b [k Hk]. revert Hk. unfold New. simpl. by rewrite lookup_empty. }
    unfold path in Hx. inversion Hx; by eapply Hnone.
Qed.

End invariant.

(** ** The cycle detector and the engine: main results *)

Section results.
Context `{Countable K} {T : Type}.
Implicit Types (d : directed K T) (sched : Sched).

(** C2.  On any graph, in whatever order the maps are walked: when
    [source] and [target] are both vertices, [CreatesCycle] returns a
    boolean and no error, and the boolean is true exactly when [source] is
    [target] or a directed path leads from [target] to [source], which is
    to say exactly when the walk back over incoming edges from [source]
    reaches [target]; when one of them is no vertex it returns a wrapped
    [ErrVertexNotFound] naming an absent one.  The graph it returns is the
    graph it was given. *)
Theorem CreatesCycle_correct d sched source target :
  match vertices (store d) !! source, vertices (store d) !! target with
  | Some _, Some _ =>
      ∃ b, CreatesCycle sched source target d = (d, Ok b)
           ∧ (b = true ↔ source = target ∨ path d target source)
           ∧ (b = true ↔ rtc (flip (has_edge d)) source target)
  | _, _ =>
      ∃ k, CreatesCycle sched source target d
           = (d, Err (Errorf "could not get vertex with hash %v: %w" [k]
                        ErrVertexNotFound))
           ∧ ¬ has_vertex d k ∧ (k = source ∨ k = target)
  end.
Proof.
  destruct (vertices (store d) !! source) as [vs|] eqn:Hs.
  - destruct (vertices (store d) !! target) as [vt|] eqn:Ht.
    + destruct (CreatesCycle_run d source target) as (b & Hb & Hrun);
        [by eexists..|].
      exists b. split; [done|]. split; [done|].
      rewrite Hb, rtc_flip_has_edge, rtc_path.
      split; (intros [?|?]; [by left|by right]).
    + apply CreatesCycle_absent. intros [_ [? ?]]. unfold has_vertex in *.
      congruence.
  - apply CreatesCycle_absent. intros [[? ?] _]. congruence.
Qed.

(** C3.  In every state of a graph created with PreventCycles, for
    [source] and [target] both vertices: if [source] is [target] or a
    path leads from [target] to [source], [AddEdge] returns
    [ErrEdgeCreatesCycle] and the graph, store included, is as before.
    Whenever [AddEdge] returns no error the edge was not there, and the
    store differs from the old one in that edge alone; whenever it
    returns an error the graph is as before. *)
Theorem AddEdge_cycle_rejected (hash : T → K) options ops sched source target :
  PreventCycles (traits (New hash options)) = true →
  let d := run_ops ops (New hash options) in
  has_vertex d source → has_vertex d target →
  (source = target ∨ path d target source →
   AddEdge sched source target d = (d, Err ErrEdgeCreatesCycle))
  ∧ (∀ d' r, AddEdge sched source target d = (d', r) →
       match r with
       | Ok _ => ¬ has_edge d source target ∧ d' = commit d source target
       | Err _ => d' = d
       end).
Proof.
  intros Htraits d Hs Ht.
  assert (safe d) as Hsafe by (by apply run_ops_safe, New_safe).
  destruct (edges (store d) !! (source, target)) as [e|] eqn:He.
  - rewrite AddEdge_exists by (done || by eexists). split.
    + intros Hcycle. exfalso.
      assert (has_edge d source target) as Hst.
      { apply (has_edge_keyed d _ _ (safe_store d Hsafe)). by eexists. }
      destruct Hcycle as [->|Hpath].
      * apply (safe_acyclic d Hsafe target). by apply tc_once.
      * apply (safe_acyclic d Hsafe source). by apply tc_l with target.
    + by intros d' r [= <- <-].
  - destruct (AddEdge_run d source target (safe_traits d Hsafe) Hs Ht He)
      as (b & Hb & Hrun).
    rewrite Hrun. split.
    + intros Hcycle. apply Hb in Hcycle as ->. done.
    + destruct b; intros d' r [= <- <-]; [done|]. split; [|done].
      rewrite (has_edge_keyed d _ _ (safe_store d Hsafe)), He.
      by intros [? ?].
Qed.

(** C1 (amended).  Every state of a graph created with PreventCycles,
    reached by any sequence of AddVertex, AddEdge, RemoveVertex and
    RemoveEdge, has no directed cycle.  In such a state [AddEdge], given
    two vertices of the graph, returns [ErrEdgeCreatesCycle] if [source]
    is [target] or a path leads from [target] to [source], and otherwise
    stores the edge unless it is there already; given a hash that is no
    vertex it returns a wrapped [ErrVertexNotFound]. *)
Theorem PreventCycles_acyclic (hash : T → K) options ops :
  PreventCycles (traits (New hash options)) = true →
  let d := run_ops ops (New hash options) in
  acyclic d ∧
  ∀ sched source target,
    (has_vertex d source → has_vertex d target →
       (source = target ∨ path d target source →
        AddEdge sched source target d = (d, Err ErrEdgeCreatesCycle))
       ∧ (¬ (source = target ∨ path d target source) →
          ¬ has_edge d source target →
          AddEdge sched source target d = (commit d source target, Ok tt)))
    ∧ (¬ (has_vertex d source ∧ has_vertex d target) →
       ∃ format k, AddEdge sched source target d
                   = (d, Err (Errorf format [k] ErrVertexNotFound))).
Proof.
  intros Htraits d.
  assert (safe d) as Hsafe by (by apply run_ops_safe, New_safe).
  split; [apply (safe_acyclic d Hsafe)|]. intros sched source target. split.
  - intros Hs Ht.
    destruct (edges (store d) !! (source, target)) as [e|] eqn:He.
    + assert (has_edge d source target) as Hst.
      { apply (has_edge_keyed d _ _ (safe_store d Hsafe)). by eexists. }
      split; [|done]. intros Hcycle. exfalso. destruct Hcycle as [->|Hpath].
      * apply (safe_acyclic d Hsafe target). by apply tc_once.
      * apply (safe_acyclic d Hsafe source). by apply tc_l with target.
    + destruct (AddEdge_run d source target (safe_traits d Hsafe) Hs Ht He)
        as (b & Hb & Hrun).
      rewrite Hrun. split.
      * intros Hcycle. apply Hb in Hcycle as ->. done.
      * intros Hno _. destruct b; [|done]. destruct Hno. by apply Hb.
  - intros Habsent. destruct (decide (has_vertex d source)) as [Hs|Hs].
    + destruct (decide (has_vertex d target)) as [Ht|Ht]; [by destruct Habsent|].
      eexists _, _. by apply AddEdge_no_target.
    + eexists _, _. by apply AddEdge_no_source.
Qed.

End results.

(** ** Sorting *)

Lemma Sorted_weaken {A} (R1 R2 : relation A) (l : list A) :
  (∀ x y, R1 x y → R2 x y) → Sorted R1 l → Sorted R2 l.
Proof.
  intros HR Hl. rewrite <- (list_fmap_id l). by apply (Sorted_fmap id R1 R2).
Qed.

Section sort_correct.
Context {A : Type} (less : A → A → bool).

Lemma sift_Permutation x r : sift less x r ≡ₚ x :: r.
Proof.
  induction r as [|y r IH]; simpl; [done|].
  destruct (less x y); [|done]. rewrite IH. apply perm_swap.
Qed.

Lemma sort_Slice_Permutation l : sort_Slice less l ≡ₚ l.
Proof.
  unfold sort_Slice. rewrite reverse_Permutation.
  assert (∀ acc, foldl (λ rev_prefix x, sift less x rev_prefix) acc l ≡ₚ l ++ acc)
    as Hfold; [|by rewrite Hfold, app_nil_r].
  induction l as [|x l IH]; intros acc; simpl; [done|].
  by rewrite IH, sift_Permutation, Permutation_middle.
Qed.

Context (less_asym : ∀ a b, less a b = true → less b a = false).
Context (not_after_trans : Transitive (not_after less)).

Lemma sift_sorted x r :
  StronglySorted (flip (not_after less)) r → StronglySorted (flip (not_after less)) (sift less x r).
Proof.
  induction 1 as [|y r Hr IH Hy]; simpl; [by repeat constructor|].
  destruct (less x y) eqn:Hxy.
  - constructor; [done|]. rewrite sift_Permutation. constructor; [|done].
    by apply less_asym.
  - constructor; [by constructor|]. constructor; [done|].
    eapply Forall_impl; [exact Hy|]. intros z Hz. unfold flip in *.
    by trans y.
Qed.

Lemma sort_Slice_sorted l : Sorted (not_after less) (sort_Slice less l).
Proof.
  unfold sort_Slice.
  assert (∀ acc, StronglySorted (flip (not_after less)) acc →
                 StronglySorted (flip (not_after less))
                   (foldl (λ rev_prefix x, sift less x rev_prefix) acc l)) as Hfold.
  { induction l as [|x l IH]; intros acc Hacc; simpl; [done|].
    by apply IH, sift_sorted. }
  apply (Sorted_reverse (flip (not_after less))), StronglySorted_Sorted, Hfold.
  constructor.
Qed.

(** Whatever procedure sorts the slice, it ends with this slice. *)
Lemma sort_Slice_unique `{!AntiSymm (=) (not_after less)} l l' :
  l' ≡ₚ l → Sorted (not_after less) l' → l' = sort_Slice less l.
Proof.
  intros Hperm Hsorted. apply (Sorted_unique (not_after less)); [done| |].
  - apply sort_Slice_sorted.
  - by rewrite sort_Slice_Permutation.
Qed.

End sort_correct.

(** *** The order of the segments *)

Lemma ltb_leb (a b : string) : String.ltb a b = negb (String.leb b a).
Proof.
  unfold String.ltb, String.leb. rewrite (String.compare_antisym b a).
  by destruct (String.compare a b).
Qed.

Lemma ltb_irrefl (a : string) : String.ltb a a = false.
Proof.
  rewrite ltb_leb. destruct (String.leb_total a a) as [->| ->]; done.
Qed.

Lemma ltb_asym (a b : string) : String.ltb a b = true → String.ltb b a = false.
Proof.
  rewrite !ltb_leb. destruct (String.leb_total a b) as [->| ->]; [done|].
  by intros [=].
Qed.

Lemma ltb_trichotomy (a b : string) :
  String.ltb a b = false → String.ltb b a = false → a = b.
Proof.
  rewrite !ltb_leb. intros Hba%negb_false_iff Hab%negb_false_iff.
  by apply String.leb_antisym.
Qed.

Lemma ltb_trans (a b c : string) :
  String.ltb a b = true → String.ltb b c = true → String.ltb a c = true.
Proof.
  intros Hab Hbc. destruct (String.ltb a c) eqn:Hac; [done|].
  rewrite ltb_leb in Hac. apply negb_false_iff, Is_true_true in Hac.
  pose proof (ltb_asym _ _ Hab) as Hba. pose proof (ltb_asym _ _ Hbc) as Hcb.
  rewrite ltb_leb in Hba, Hcb.
  apply negb_false_iff, Is_true_true in Hba, Hcb.
  assert (String.le c b) as Hcb' by (by trans a).
  assert (b = c) as -> by (by apply (anti_symm String.le)).
  by rewrite ltb_irrefl in Hbc.
Qed.

(** [less] is the strict order by source, then by target. *)
Lemma less_lex (a b : segment) :
  less a b = true ↔
  String.ltb a.1 b.1 = true ∨ (a.1 = b.1 ∧ String.ltb a.2 b.2 = true).
Proof.
  unfold less. destruct (String.ltb a.1 b.1) eqn:Hab; [by split; [left|]|].
  destruct (String.ltb b.1 a.1) eqn:Hba.
  - split; [done|]. intros [?|[Heq _]]; [done|]. rewrite Heq in Hba.
    by rewrite ltb_irrefl in Hba.
  - split; [right; split; [by apply ltb_trichotomy|done]|].
    by intros [?|[_ ?]].
Qed.

Lemma lex_le_not_after (a b : segment) : lex_le a b ↔ not_after less a b.
Proof.
  unfold not_after, lex_le. rewrite <- not_true_iff_false, less_lex. split.
  - intros [Hab|[Heq Hle]] [Hba|[Heq' Hba]].
    + apply ltb_asym in Hab. congruence.
    + rewrite Heq' in Hab. by rewrite ltb_irrefl in Hab.
    + rewrite Heq in Hba. by rewrite ltb_irrefl in Hba.
    + rewrite ltb_leb, Hle in Hba. done.
  - intros Hno. destruct (String.ltb a.1 b.1) eqn:Hab; [by left|]. right.
    destruct (String.ltb b.1 a.1) eqn:Hba; [destruct Hno; by left|].
    assert (a.1 = b.1) as Heq by (by apply ltb_trichotomy). split; [done|].
    destruct (String.leb a.2 b.2) eqn:Hle; [done|]. destruct Hno. right.
    split; [done|]. by rewrite ltb_leb, Hle.
Qed.

Lemma less_asym (a b : segment) : less a b = true → less b a = false.
Proof.
  intros Hab. apply not_true_iff_false. revert Hab. rewrite !less_lex.
  intros [Hab|[Heq Hab]] [Hba|[Heq' Hba]].
  - apply ltb_asym in Hab. congruence.
  - rewrite Heq' in Hab. by rewrite ltb_irrefl in Hab.
  - rewrite Heq in Hba. by rewrite ltb_irrefl in Hba.
  - apply ltb_asym in Hab. congruence.
Qed.

Lemma less_trichotomy (a b : segment) :
  less a b = false → less b a = false → a = b.
Proof.
  intros Hab%not_true_iff_false Hba%not_true_iff_false.
  rewrite less_lex in Hab, Hba. destruct a as [a1 a2], b as [b1 b2]; simpl in *.
  assert (a1 = b1) as ->.
  { apply ltb_trichotomy; apply not_true_iff_false; intros ?;
      [apply Hab|apply Hba]; by left. }
  f_equal. apply ltb_trichotomy; apply not_true_iff_false; intros ?;
    [apply Hab|apply Hba]; by right.
Qed.

Lemma less_trans (a b c : segment) :
  less a b = true → less b c = true → less a c = true.
Proof.
  rewrite !less_lex. intros [Hab|[Heq Hab]] [Hbc|[Heq' Hbc]].
  - left. by apply ltb_trans with b.1.
  - left. by rewrite <- Heq'.
  - left. by rewrite Heq.
  - right. split; [congruence|]. by apply ltb_trans with b.2.
Qed.

Global Instance not_after_less_trans : Transitive (not_after less).
Proof.
  intros a b c Hab Hbc. unfold not_after in *.
  destruct (less c a) eqn:Hca; [|done].
  destruct (less a b) eqn:Hab'.
  - by rewrite (less_trans c a b) in Hbc.
  - assert (a = b) as -> by (by apply less_trichotomy). congruence.
Qed.

Global Instance not_after_less_antisym : AntiSymm (=) (not_after less).
Proof. intros a b Hab Hba. by apply less_trichotomy. Qed.

(** ** The traversal of a graph of strings *)

Section walks.
Implicit Types (g : directed string string) (sched : Sched)
  (stack order : list string) (visited : gset string).

Lemma DFS_loop_spec g fuel sched i stack visited acc :
  built g →
  length stack + weight (adjacency_map g) visited < fuel →
  (∀ k, k ∈ stack → has_vertex g k) →
  ∃ order,
    DFS_loop fuel sched i (adjacency_map g) collect stack visited acc g
    = (g, (acc ++ order, Ok tt))
    ∧ NoDup order
    ∧ (∀ k, k ∈ order → (k ∉ visited) ∧ ∃ s, s ∈ stack ∧ rtc (has_edge g) s k)
    ∧ (∀ k, k ∈ stack → k ∈ visited ∨ k ∈ order)
    ∧ ((∀ v n, v ∈ visited → has_edge g v n → n ∈ visited ∨ n ∈ stack) →
       ∀ v n, v ∈ visited ∨ v ∈ order → has_edge g v n →
              n ∈ visited ∨ n ∈ order)
    ∧ (∀ c, head stack = Some c → c ∉ visited → head order = Some c).
Proof.
  intros Hbuilt. revert i stack visited acc.
  induction fuel as [|fuel IH]; intros i stack visited acc Hfuel Hstack; [lia|].
  destruct stack as [|c stack]; simpl.
  { exists []. rewrite app_nil_r. split; [done|]. split; [constructor|].
    split; [by intros k ?%elem_of_nil|]. split; [by intros k ?%elem_of_nil|].
    split; [|done]. intros Hclosed v n [Hv|Hv%elem_of_nil] Hvn; [|done].
    destruct (Hclosed v n Hv Hvn) as [?|?%elem_of_nil]; [by left|done]. }
  destruct (decide (c ∈ visited)) as [Hc|Hc].
  - destruct (IH i stack visited acc) as (order & -> & Hnodup & Hsound & Hcover
                                         & Hclosed & Hhead).
    { simpl in Hfuel. lia. }
    { intros k Hk. apply Hstack. by right. }
    exists order. split; [done|]. split; [done|]. split; [|split; [|split]].
    + intros k Hk. destruct (Hsound k Hk) as (Hnew & s & Hs & Hr).
      split; [done|]. exists s. split; [by right|done].
    + intros k [->|Hk]%elem_of_cons; [by left|by apply Hcover].
    + intros Hinv. apply Hclosed. intros v n Hv Hvn.
      destruct (Hinv v n Hv Hvn) as [?|[->|?]%elem_of_cons]; auto.
    + by intros c' [= ->] ?.
  - destruct (Hstack c) as [value Hvalue]; [by left|].
    rewrite Vertex_run, Hvalue. rewrite (built_values g Hbuilt _ _ Hvalue).
    clear value Hvalue.
    set (pushed := reverse _).
    destruct (IH (S i) (pushed ++ stack) ({[c]} ∪ visited) (acc ++ [c]))
      as (order & -> & Hnodup & Hsound & Hcover & Hclosed & Hhead).
    { unfold pushed. rewrite length_app, length_reverse, length_range_keys.
      pose proof (weight_visit (adjacency_map g) visited c Hc).
      simpl in Hfuel. lia. }
    { intros k [Hk|Hk]%elem_of_app; [|apply Hstack; by right].
      apply elem_of_reverse, elem_of_range_keys, adjacency_map_entry in Hk.
      apply (wf_ends g (safe_store g (built_safe g Hbuilt)) c k Hk). }
    exists (c :: order). rewrite <- app_assoc. split; [done|].
    assert (∀ k, k ∈ pushed ↔ has_edge g c k) as Hpushed.
    { intros k. unfold pushed.
      by rewrite elem_of_reverse, elem_of_range_keys, adjacency_map_entry. }
    split; [|split; [|split; [|split]]].
    + constructor; [|done]. intros Hin. apply Hsound in Hin as [Hnew _].
      apply Hnew. set_solver.
    + intros k [->|Hk]%elem_of_cons.
      * split; [done|]. exists c. split; [by left|done].
      * destruct (Hsound k Hk) as (Hnew & s & Hs & Hr).
        split; [set_solver|]. apply elem_of_app in Hs as [Hs|Hs].
        -- exists c. split; [by left|]. apply rtc_l with s; [|done].
           by apply Hpushed.
        -- exists s. split; [by right|done].
    + intros k [->|Hk]%elem_of_cons; [right; by left|].
      destruct (Hcover k) as [Hin|Hin]; [apply elem_of_app; by right| |].
      * apply elem_of_union in Hin as [->%elem_of_singleton|?];
          [right; by left|by left].
      * right. by right.
    + intros Hinv.
      assert (∀ v n, v ∈ {[c]} ∪ visited ∨ v ∈ order → has_edge g v n →
                     n ∈ {[c]} ∪ visited ∨ n ∈ order) as Hclosed'.
      { apply Hclosed. intros v n [->%elem_of_singleton|Hv]%elem_of_union Hvn.
        - right. apply elem_of_app. left. by apply Hpushed.
        - destruct (Hinv v n Hv Hvn) as [?|[->|?]%elem_of_cons].
          + left. set_solver.
          + left. set_solver.
          + right. apply elem_of_app. by right. }
      intros v n Hv Hvn.
      assert (v ∈ {[c]} ∪ visited ∨ v ∈ order) as Hv'.
      { destruct Hv as [?|[->|?]%elem_of_cons]; [left; set_solver..|by right]. }
      destruct (Hclosed' v n Hv' Hvn)
        as [[->%elem_of_singleton|?]%elem_of_union|?];
        [right; by left|by left|right; by right].
    + by intros c' [= ->] _.
Qed.

End walks.

Section runs.
Implicit Types (g : directed string string) (sched : Sched)
  (scheds : nat → Sched) (dfs : list string).

Lemma built_sources g : built g → ∀ x y, has_edge g x y → has_vertex g x.
Proof.
  intros Hbuilt x y Hxy.
  by destruct (wf_ends g (safe_store g (built_safe g Hbuilt)) x y Hxy).
Qed.

(** A run of [DFS] from a vertex of a built graph returns no error and
    leaves the graph alone; it visits the start first, and then once each
    what the start leads to. *)
Lemma DFS_run g sched start :
  built g → has_vertex g start →
  DFS sched start collect [] g = (g, (walk sched start g, Ok tt))
  ∧ NoDup (walk sched start g)
  ∧ (∀ k, k ∈ walk sched start g ↔ rtc (has_edge g) start k)
  ∧ head (walk sched start g) = Some start.
Proof.
  intros Hbuilt Hstart. unfold walk, DFS.
  rewrite AdjacencyMap_run by apply (built_sources g Hbuilt).
  destruct (DFS_loop_spec g (2 + buckets_size (adjacency_map g)) (after 2 sched)
              0 [start] ∅ [] Hbuilt)
    as (order & -> & Hnodup & Hsound & Hcover & Hclosed & Hhead).
  { rewrite weight_empty. simpl. lia. }
  { by intros k ->%list_elem_of_singleton. }
  simpl. split; [done|]. split; [done|]. split; [|by apply Hhead].
  intros k. split.
  - intros (_ & s & ->%list_elem_of_singleton & Hr)%Hsound. done.
  - intros Hr.
    assert (start ∈ order) as Hin.
    { destruct (Hcover start) as [?%not_elem_of_empty|?]; [by left|done..]. }
    assert (∀ v n, v ∈ order → has_edge g v n → n ∈ order) as Hstep.
    { intros v n Hv Hvn. destruct (Hclosed) with v n
        as [?%not_elem_of_empty|?]; [|by right|done|done..].
      intros ? ? ?%not_elem_of_empty. done. }
    clear -Hr Hin Hstep. induction Hr as [|x y z Hxy _ IH]; [done|].
    apply IH. by apply (Hstep x).
Qed.

Lemma walk_Permutation g sched sched' start :
  built g → has_vertex g start →
  walk sched start g ≡ₚ walk sched' start g.
Proof.
  intros Hbuilt Hstart.
  destruct (DFS_run g sched start Hbuilt Hstart) as (_ & Hnodup & Hin & _).
  destruct (DFS_run g sched' start Hbuilt Hstart) as (_ & Hnodup' & Hin' & _).
  apply NoDup_Permutation; [done..|]. intros k. by rewrite Hin, Hin'.
Qed.

Lemma longest_run g scheds i segments dfs printed :
  built g → (∀ el, el ∈ segments → has_vertex g el.1) →
  longest scheds i segments g dfs printed
  = (longest_of (imap (λ j el, walk (scheds (i + j)) el.1 g) segments) dfs,
     printed).
Proof.
  intros Hbuilt. revert i dfs.
  induction segments as [|el segments IH]; intros i dfs Hstarts; [done|].
  simpl. destruct (DFS_run g (scheds i) el.1 Hbuilt) as (-> & _);
    [apply Hstarts; by left|].
  rewrite IH by (intros el' ?; apply Hstarts; by right).
  rewrite Nat.add_0_r. simpl. do 2 f_equal.
  apply imap_ext. intros j el' _. simpl. do 2 f_equal. lia.
Qed.

End runs.

(** ** The first loop of calculate *)

Section building.
Implicit Types (d : directed string string) (sched : Sched)
  (scheds : nat → Sched) (el : segment) (segments : list segment).

Lemma ensure_run {B} d k (rest : unit → M string string B) :
  hash d = StringHash →
  (attempt (Vertex k)
   ≫= λ r, (if r is Err _ then AddVertex k else ret tt) ≫= rest) d
  = rest tt (ensure d k).
Proof.
  intros Hhash. unfold ensure. run_M. rewrite Vertex_run.
  destruct (vertices (store d) !! k) eqn:Hk; run_M; [done|].
  assert (hash d k = k) as Hhk by (by rewrite Hhash).
  unfold AddVertex, store_AddVertex. run_M. by rewrite Hhk, Hk.
Qed.

Lemma ensure_hash d k : hash (ensure d k) = hash d.
Proof. unfold ensure. by destruct (vertices (store d) !! k). Qed.

Lemma ensure_has_vertex d k : has_vertex (ensure d k) k.
Proof.
  unfold ensure, has_vertex.
  destruct (vertices (store d) !! k) eqn:Hk; [by rewrite Hk|].
  simpl. by rewrite lookup_insert_eq.
Qed.

Lemma ensure_keeps d k x : has_vertex d x → has_vertex (ensure d k) x.
Proof.
  unfold ensure, has_vertex. intros Hx.
  destruct (vertices (store d) !! k) eqn:Hk; [done|]. simpl.
  destruct (decide (k = x)) as [->|Hne]; [by rewrite lookup_insert_eq|].
  by rewrite lookup_insert_ne.
Qed.

Lemma ensure_edges d k : edges (store (ensure d k)) = edges (store d).
Proof. unfold ensure. by destruct (vertices (store d) !! k). Qed.

Lemma ensure_built d k : built d → built (ensure d k).
Proof.
  intros [Hsafe Hhash Hvalues]. unfold ensure.
  destruct (vertices (store d) !! k) eqn:Hk; [done|]. split; [|done|].
  - apply (safe_shrink d); [done..| |done].
    intros x Hx. pose proof (ensure_keeps d k x Hx) as Hx'.
    unfold ensure in Hx'. by rewrite Hk in Hx'.
  - intros x v. simpl. destruct (decide (k = x)) as [->|Hne].
    + rewrite lookup_insert_eq. congruence.
    + rewrite lookup_insert_ne by done. apply Hvalues.
Qed.

(** One pass of the loop body. *)
Lemma build_cons scheds i el segments d :
  hash d = StringHash →
  build scheds i (el :: segments) d
  = let d2 := ensure (ensure d el.1) el.2 in
    match edges (store d2) !! (el.1, el.2) with
    | Some _ => build scheds (S i) segments d2
    | None =>
        match AddEdge (scheds i) el.1 el.2 d2 with
        | (d3, Ok _) => build scheds (S i) segments d3
        | (d3, Err err) => (d3, Err err)
        end
    end.
Proof.
  intros Hhash. cbn [build]. cbv zeta.
  rewrite ensure_run by done.
  rewrite ensure_run by (by rewrite ensure_hash).
  set (d2 := ensure (ensure d el.1) el.2).
  destruct (GetEdge_run d2 el.1 el.2) as (r & Hr & Hmatch).
  { apply ensure_keeps, ensure_has_vertex. }
  { apply ensure_has_vertex. }
  run_M. rewrite Hr. run_M.
  destruct (edges (store d2) !! (el.1, el.2)).
  - destruct Hmatch as [e' ->]. by run_M.
  - subst r. by destruct (AddEdge (scheds i) el.1 el.2 d2) as [d3 [[]|err]].
Qed.

Lemma extends_refl d : extends d d.
Proof. by split. Qed.

Lemma extends_trans d1 d2 d3 : extends d1 d2 → extends d2 d3 → extends d1 d3.
Proof. intros [? ?] [? ?]. split; eauto. Qed.

Lemma extends_present d d' el : extends d d' → present d el → present d' el.
Proof.
  intros [Hv He] (Hs & Ht & [e Hst]). split; [by apply Hv|].
  split; [by apply Hv|]. exists e. by apply He.
Qed.

Lemma ensure_extends d k : extends d (ensure d k).
Proof.
  split; [apply ensure_keeps|]. intros ? ?. by rewrite ensure_edges.
Qed.

Lemma step_spec d el d' r :
  built d → step d el = (d', r) →
  built d' ∧ extends d d'
  ∧ match r with
    | Ok _ => present d' el
    | Err err => err = ErrEdgeCreatesCycle
    end.
Proof.
  intros Hbuilt. unfold step. cbv zeta.
  set (d2 := ensure (ensure d el.1) el.2).
  assert (built d2) as Hbuilt2 by (by do 2 apply ensure_built).
  assert (extends d d2) as Hext.
  { apply extends_trans with (ensure d el.1); apply ensure_extends. }
  assert (has_vertex d2 el.1) as Hs by apply ensure_keeps, ensure_has_vertex.
  assert (has_vertex d2 el.2) as Ht by apply ensure_has_vertex.
  destruct (edges (store d2) !! (el.1, el.2)) as [e|] eqn:He.
  - intros [= <- <-]. split; [done|]. split; [done|]. split; [done|].
    split; [done|]. by exists e.
  - destruct (AddEdge_run d2 el.1 el.2) as (b & Hb & ->);
      [apply (safe_traits d2 (built_safe d2 Hbuilt2))|done..|].
    destruct b; intros [= <- <-]; [done|].
    assert (built (commit d2 el.1 el.2)) as Hbuilt3.
    { destruct Hbuilt2 as [[Htraits Hwf Hacyclic] Hhash Hvalues].
      split; [|done..]. split; [done| |].
      - by apply well_formed_commit.
      - apply acyclic_commit; [done..|]. rewrite <- Hb. done. }
    split; [done|].
    assert (extends d2 (commit d2 el.1 el.2)) as Hext2.
    { split; [done|]. intros k e Hk. simpl.
      rewrite lookup_insert_ne; [done|]. intros <-. congruence. }
    split; [by apply extends_trans with d2|].
    split; [done|]. split; [done|]. simpl. by rewrite lookup_insert_eq.
Qed.

Lemma ensure_present d k : has_vertex d k → ensure d k = d.
Proof. unfold ensure. by intros [v ->]. Qed.

Lemma step_present d el : present d el → step d el = (d, Ok tt).
Proof.
  intros (Hs & Ht & [e He]). unfold step.
  rewrite !ensure_present by (done || by rewrite ensure_present).
  by rewrite He.
Qed.

(** The order the maps are walked in makes no difference to the graph
    built or to the error returned. *)
Lemma build_steps scheds i segments d :
  built d → build scheds i segments d = steps d segments.
Proof.
  revert i d. induction segments as [|el segments IH]; intros i d Hbuilt; [done|].
  rewrite build_cons by apply (built_hash d Hbuilt). cbn [steps].
  unfold step. cbv zeta. set (d2 := ensure (ensure d el.1) el.2).
  assert (built d2) as Hbuilt2 by (by do 2 apply ensure_built).
  destruct (edges (store d2) !! (el.1, el.2)) as [e|] eqn:He; [by apply IH|].
  destruct (AddEdge_run d2 el.1 el.2) as (b & Hb & Hrun);
    [apply (safe_traits d2 (built_safe d2 Hbuilt2))
    |apply ensure_keeps, ensure_has_vertex|apply ensure_has_vertex|done|].
  rewrite !Hrun. destruct b; [done|]. apply IH.
  destruct (step_spec d el (commit d2 el.1 el.2) (Ok tt) Hbuilt) as [? _]; [|done].
  unfold step. cbv zeta. fold d2. rewrite He, Hrun. done.
Qed.

Lemma steps_spec d segments d' r :
  built d → steps d segments = (d', r) →
  built d' ∧ extends d d'
  ∧ match r with
    | Ok _ => ∀ el, el ∈ segments → present d' el
    | Err err => err = ErrEdgeCreatesCycle
    end.
Proof.
  revert d. induction segments as [|el segments IH]; intros d Hbuilt; simpl.
  - intros [= <- <-]. split; [done|]. split; [apply extends_refl|].
    by intros el ?%elem_of_nil.
  - destruct (step d el) as [d1 [[]|err]] eqn:Hstep.
    + destruct (step_spec d el d1 (Ok tt) Hbuilt Hstep) as (Hbuilt1 & Hext & Hel).
      intros Hsteps. destruct (IH d1 Hbuilt1 Hsteps) as (Hbuilt' & Hext' & Hr).
      split; [done|]. split; [by apply extends_trans with d1|].
      destruct r as [[]|err]; [|done].
      intros el' [->|Hin]%elem_of_cons; [|by apply Hr].
      by apply (extends_present d1).
    + destruct (step_spec d el d1 (Err err) Hbuilt Hstep) as (Hbuilt1 & Hext & ->).
      by intros [= <- <-].
Qed.

(** A segment repeated in place changes nothing. *)
Lemma steps_repeat d el segments :
  built d → steps d (el :: el :: segments) = steps d (el :: segments).
Proof.
  intros Hbuilt. cbn [steps].
  destruct (step d el) as [d' [[]|err]] eqn:Hstep; [|done].
  destruct (step_spec d el d' (Ok tt) Hbuilt Hstep) as (_ & _ & Hpresent).
  by rewrite step_present.
Qed.

Lemma New_built : built (New StringHash [Directed; PreventCyclesOpt]).
Proof.
  split; [by apply New_safe|done|]. intros k v. unfold New. simpl.
  by rewrite lookup_empty.
Qed.

End building.

(** ** Repeated segments *)

Section stutter.
Context {A : Type} `{EqDecision A}.
Implicit Types (l r b : list A) (x y : A).

Lemma squeeze_cons_cons x y r :
  squeeze (x :: y :: r)
  = if decide (x = y) then squeeze (y :: r) else x :: squeeze (y :: r).
Proof. done. Qed.

Lemma stutter_squeeze l : stutter (squeeze l) l.
Proof.
  induction l as [|x r IH]; [constructor|].
  destruct r as [|y r]; [repeat constructor|].
  cbn [squeeze]. destruct (decide (x = y)) as [->|Hne].
  - by apply stutter_dup.
  - by apply stutter_cons.
Qed.

Lemma elem_of_squeeze l x : x ∈ squeeze l ↔ x ∈ l.
Proof.
  induction l as [|y r IH]; [done|].
  destruct r as [|z r]; [done|].
  cbn [squeeze]. destruct (decide (y = z)) as [->|Hne].
  - rewrite IH. set_solver.
  - rewrite !elem_of_cons. rewrite IH. by rewrite !elem_of_cons.
Qed.

Context (R : relation A) `{!Transitive R, !AntiSymm (=) R}.

Lemma squeeze_sorted l :
  StronglySorted R l → StronglySorted R (squeeze l) ∧ NoDup (squeeze l).
Proof.
  induction 1 as [|x r Hr IH Hx]; [by split; constructor|].
  destruct r as [|y r]; [split; repeat constructor; by intros ?%elem_of_nil|].
  rewrite squeeze_cons_cons. destruct (decide (x = y)) as [->|Hne]; [done|].
  destruct IH as [Hsorted Hnodup]. split.
  - constructor; [done|]. apply Forall_forall. intros z Hz.
    apply (proj1 (elem_of_squeeze _ _)) in Hz.
    rewrite Forall_forall in Hx. by apply Hx.
  - constructor; [|done]. intros Hin. apply (proj1 (elem_of_squeeze _ _)) in Hin.
    apply elem_of_cons in Hin as [?|Hin]; [done|].
    apply Hne, (anti_symm R).
    + by inv Hx.
    + apply StronglySorted_inv in Hr as [_ Hy].
      rewrite Forall_forall in Hy. by apply Hy.
Qed.

(** Sorted lists with the same elements differ in repetitions only. *)
Lemma squeeze_sorted_eq l l' :
  Sorted R l → Sorted R l' → (∀ x, x ∈ l ↔ x ∈ l') → squeeze l = squeeze l'.
Proof.
  intros Hl%Sorted_StronglySorted Hl'%Sorted_StronglySorted Hsame; [|done..].
  destruct (squeeze_sorted l Hl) as [Hs Hn].
  destruct (squeeze_sorted l' Hl') as [Hs' Hn'].
  apply (StronglySorted_unique R); [done..|].
  apply NoDup_Permutation; [done..|]. intros x.
  by rewrite !elem_of_squeeze.
Qed.

End stutter.

Lemma steps_stutter (b l : list segment) d :
  stutter b l → built d → steps d l = steps d b.
Proof.
  intros Hstutter. revert d.
  induction Hstutter as [|x b l _ IH|x b l _ IH]; intros d Hbuilt; [done| |].
  - cbn [steps]. destruct (step d x) as [d' [[]|err]] eqn:Hstep; [|done].
    apply IH. by destruct (step_spec d x d' (Ok tt) Hbuilt Hstep).
  - rewrite steps_repeat by done. by apply IH.
Qed.

(** ** The choice among the runs *)

Section choice.
Implicit Types (ws : list (list string)) (dfs : list string).

Global Instance same_route_equiv : Equivalence same_route.
Proof.
  split.
  - by split.
  - by intros a b [? ?].
  - intros a b c [? ?] [? ?]. split; by etrans.
Qed.

Lemma same_route_length a b : same_route a b → length a = length b.
Proof. intros [Hperm _]. by apply Permutation_length. Qed.

Context (R : relation (list string)) `{!Equivalence R}.
Context (R_length : ∀ a b, R a b → length a = length b).
Context (canon : string → list string).

Lemma longest_of_cons w ws dfs :
  longest_of (w :: ws) dfs
  = longest_of ws (if bool_decide (length dfs < length w) then w else dfs).
Proof. done. Qed.

Lemma longest_of_repeat w w' ws dfs :
  length w' = length w → longest_of (w :: w' :: ws) dfs = longest_of (w :: ws) dfs.
Proof.
  intros Hlen. rewrite !longest_of_cons. f_equal.
  destruct (decide (length dfs < length w)) as [Hlt|Hlt].
  - rewrite (bool_decide_true _ Hlt). rewrite bool_decide_false; [done|lia].
  - rewrite (bool_decide_false _ Hlt). rewrite bool_decide_false; [done|lia].
Qed.

Lemma longest_of_stutter (b l : list segment) ws ws' dfs dfs' :
  stutter b l → follows R canon l.*1 ws → follows R canon b.*1 ws' → R dfs dfs' →
  R (longest_of ws dfs) (longest_of ws' dfs').
Proof.
  intros Hstutter. revert ws ws' dfs dfs'.
  induction Hstutter as [|x b l _ IH|x b l _ IH]; intros ws ws' dfs dfs'.
  - intros ->%Forall2_nil_inv_l ->%Forall2_nil_inv_l. done.
  - intros (w & ws0 & Hw & Hws & ->)%Forall2_cons_inv_l
           (w' & ws0' & Hw' & Hws' & ->)%Forall2_cons_inv_l Hdfs.
    rewrite !longest_of_cons. apply IH; [done..|].
    assert (R w w') as Hww by (by rewrite Hw, Hw').
    rewrite (R_length _ _ Hww), (R_length _ _ Hdfs).
    by case_bool_decide.
  - intros (w1 & ws1 & Hw1 & (w2 & ws0 & Hw2 & Hws & ->)%Forall2_cons_inv_l & ->)
             %Forall2_cons_inv_l Hws' Hdfs.
    rewrite longest_of_repeat.
    + apply IH; [|done..]. by constructor.
    + apply R_length. by rewrite Hw1, Hw2.
Qed.

End choice.

(** ** calculate *)

Section synthesis.
Implicit Types (g : directed string string) (sched : Sched)
  (scheds : nat → Sched) (segments : list segment) (ctx : Context).

(** [calculate] in three parts: the sort, the graph, the choice. *)
Lemma calculate_run ctx scheds segments :
  calculate ctx scheds segments
  = let sorted := sort_Slice less segments in
    match steps fresh sorted with
    | (_, Err err) => mkOutcome sorted [] (Some err) []
    | (g, Ok _) =>
        mkOutcome sorted (longest_of (walks scheds (length sorted) sorted g) [])
          None []
    end.
Proof.
  unfold calculate. cbv zeta. fold fresh.
  rewrite build_steps by apply New_built.
  destruct (steps fresh (sort_Slice less segments)) as [g [[]|err]] eqn:Hsteps;
    [|done].
  destruct (steps_spec fresh _ g (Ok tt) New_built Hsteps) as (Hbuilt & _ & Hin).
  rewrite longest_run; [done..|]. intros el Hel. by destruct (Hin el Hel).
Qed.

Lemma calculate_segments ctx scheds segments :
  out_segments (calculate ctx scheds segments) = sort_Slice less segments.
Proof. unfold calculate. cbv zeta. by repeat case_match. Qed.


(** C10.  After every call, with or without an error, the caller's
    slice holds the segments it held before, rearranged into the order by
    source and then by target. *)
Theorem calculate_sorts_argument ctx scheds segments :
  out_segments (calculate ctx scheds segments) ≡ₚ segments
  ∧ Sorted lex_le (out_segments (calculate ctx scheds segments))
  ∧ out_segments (calculate ctx scheds segments) = sort_Slice less segments.
Proof.
  rewrite calculate_segments.
  split; [apply sort_Slice_Permutation|]. split; [|done].
  apply (Sorted_weaken (not_after less)); [intros a b; apply lex_le_not_after|].
  apply (sort_Slice_sorted less less_asym _).
Qed.

(** *** Graphs in which no vertex has two outgoing edges *)

Lemma is_chain_bucket g k : is_chain g → size (adjacency_map g !!! k) ≤ 1.
Proof.
  intros Hchain. rewrite lookup_total_alt.
  destruct (adjacency_map g !! k) as [b|] eqn:Hb; simpl.
  - apply (Hchain k b Hb).
  - rewrite map_size_empty. lia.
Qed.

(** On such a graph the order the maps are walked in cannot matter. *)
Lemma DFS_loop_chain g fuel sched i stack visited acc :
  is_chain g →
  DFS_loop fuel sched i (adjacency_map g) collect stack visited acc g
  = DFS_loop fuel in_order i (adjacency_map g) collect stack visited acc g.
Proof.
  intros Hchain. revert i stack visited acc.
  induction fuel as [|fuel IH]; intros i stack visited acc; [done|].
  destruct stack as [|c stack]; simpl; [done|].
  destruct (decide (c ∈ visited)); [apply IH|].
  rewrite Vertex_run. destruct (vertices (store g) !! c) as [value|]; [|done].
  rewrite (range_keys_short (sched i)) by (by apply is_chain_bucket).
  apply IH.
Qed.

Lemma walk_chain g sched start :
  built g → is_chain g → walk sched start g = walk in_order start g.
Proof.
  intros Hbuilt Hchain. unfold walk, DFS.
  rewrite !AdjacencyMap_run by apply (built_sources g Hbuilt).
  do 2 f_equal. etrans; [by apply DFS_loop_chain|].
  symmetry. by apply DFS_loop_chain.
Qed.

Lemma calculate_chain ctx scheds segments :
  is_chain (steps fresh (sort_Slice less segments)).1 →
  calculate ctx scheds segments = calculate ctx_live ordered segments.
Proof.
  intros Hchain. rewrite !calculate_run. cbv zeta.
  destruct (steps fresh (sort_Slice less segments)) as [g [[]|err]] eqn:Hsteps;
    [|done].
  destruct (steps_spec fresh _ g (Ok tt) New_built Hsteps) as (Hbuilt & _).
  do 2 f_equal. unfold walks. apply imap_ext. intros j el _. simpl.
  etrans; [by apply walk_chain|]. symmetry. by apply walk_chain.
Qed.

(** C4.  On the four segments IND-EWR, SFO-ATL, GSO-IND, ATL-GSO,
    whatever the context and the order the maps are walked in, calculate
    returns the path SFO, ATL, GSO, IND, EWR and no error. *)
Theorem calculate_multiple_routes ctx scheds :
  let out := calculate ctx scheds
               [("IND", "EWR"); ("SFO", "ATL"); ("GSO", "IND"); ("ATL", "GSO")] in
  out_path out = ["SFO"; "ATL"; "GSO"; "IND"; "EWR"] ∧ out_err out = None.
Proof.
  cbv zeta. rewrite calculate_chain; [by vm_compute|].
  apply (bool_decide_eq_true_1 (is_chain _)). by vm_compute.
Qed.

(** C8.  On the two segments IND-FDF and DAD-EED, whatever the context
    and the order the maps are walked in, calculate returns the chain DAD,
    EED and no error: one of the two chains, no merge of them.  After the
    sort DAD-EED comes first; the two runs of the second loop yield DAD,
    EED and IND, FDF, two vertices each, and the first of the longest is
    kept. *)
Theorem calculate_disconnected ctx scheds :
  let segments := [("IND", "FDF"); ("DAD", "EED")] in
  let out := calculate ctx scheds segments in
  let g := (build scheds 0 (out_segments out) fresh).1 in
  out_path out = ["DAD"; "EED"] ∧ out_err out = None
  ∧ out_segments out = [("DAD", "EED"); ("IND", "FDF")]
  ∧ walks scheds 2 (out_segments out) g = [["DAD"; "EED"]; ["IND"; "FDF"]]
  ∧ out_path out = longest_of (walks scheds 2 (out_segments out) g) [].
Proof.
  cbv zeta. rewrite calculate_chain;
    [|apply (bool_decide_eq_true_1 (is_chain _)); by vm_compute].
  split; [by vm_compute|]. split; [by vm_compute|]. split; [by vm_compute|].
  assert (out_segments
            (calculate ctx_live ordered [("IND", "FDF"); ("DAD", "EED")])
          = [("DAD", "EED"); ("IND", "FDF")]) as -> by (by vm_compute).
  rewrite build_steps by apply New_built.
  assert (is_chain (steps fresh [("DAD", "EED"); ("IND", "FDF")]).1) as Hchain.
  { apply (bool_decide_eq_true_1 (is_chain _)). by vm_compute. }
  assert (built (steps fresh [("DAD", "EED"); ("IND", "FDF")]).1) as Hbuilt.
  { destruct (steps fresh [("DAD", "EED"); ("IND", "FDF")]) as [g r] eqn:Hsteps.
    by destruct (steps_spec fresh _ g r New_built Hsteps). }
  assert (walks scheds 2 [("DAD", "EED"); ("IND", "FDF")]
            (steps fresh [("DAD", "EED"); ("IND", "FDF")]).1
          = [["DAD"; "EED"]; ["IND"; "FDF"]]) as ->.
  { cbv beta iota delta [walks imap compose].
    rewrite !(walk_chain _ (scheds _)) by done. by vm_compute. }
  split; [done|by vm_compute].
Qed.

(** C5 (what the code does).  With a context whose deadline has passed,
    whatever the order the maps are walked in, calculate on the one segment
    SFO-EWR returns the path SFO, EWR and no error. *)
Theorem calculate_past_deadline scheds :
  let out := calculate ctx_deadline_exceeded scheds [("SFO", "EWR")] in
  out_path out = ["SFO"; "EWR"] ∧ out_err out = None.
Proof.
  cbv zeta. rewrite calculate_chain; [by vm_compute|].
  apply (bool_decide_eq_true_1 (is_chain _)). by vm_compute.
Qed.

(** The context has no part in the result, and the one error calculate
    returns is that of a cycle. *)
Lemma calculate_context ctx ctx' scheds segments :
  calculate ctx scheds segments = calculate ctx' scheds segments
  ∧ (out_err (calculate ctx scheds segments) = None
     ∨ out_err (calculate ctx scheds segments) = Some ErrEdgeCreatesCycle).
Proof.
  split; [done|]. rewrite calculate_run. cbv zeta.
  destruct (steps fresh (sort_Slice less segments)) as [g [[]|err]] eqn:Hsteps;
    [by left|].
  destruct (steps_spec fresh _ g (Err err) New_built Hsteps) as (_ & _ & ->).
  by right.
Qed.

(** The second loop on a graph that lacks the start of a run, which
    [calculate] never hands it: the error of the run is printed and the
    loop goes on to the next run. *)
Example longest_prints_and_continues :
  longest ordered 0 [("A", "B"); ("C", "D")] fresh [] []
  = ([], [ErrVertexNotFound; ErrVertexNotFound]).
Proof. by vm_compute. Qed.


(** *** Runs that may walk the maps in different orders *)

Lemma walks_cons scheds i el segments g :
  walks scheds i (el :: segments) g
  = walk (scheds i) el.1 g :: walks scheds (S i) segments g.
Proof.
  unfold walks. rewrite imap_cons, Nat.add_0_r. f_equal.
  apply imap_ext. intros j el' _. simpl. do 2 f_equal. lia.
Qed.

Lemma walks_follows (R : relation (list string)) canon scheds i segments g :
  (∀ n el, el ∈ segments → R (walk (scheds n) el.1 g) (canon el.1)) →
  follows R canon segments.*1 (walks scheds i segments g).
Proof.
  revert i. induction segments as [|el segments IH]; intros i Hcanon.
  - constructor.
  - rewrite walks_cons. constructor; [apply Hcanon; by left|].
    apply IH. intros n el' Hel'. apply Hcanon. by right.
Qed.

Lemma walk_same_route g sched sched' start :
  built g → has_vertex g start →
  same_route (walk sched start g) (walk sched' start g).
Proof.
  intros Hbuilt Hstart. split; [by apply walk_Permutation|].
  destruct (DFS_run g sched start Hbuilt Hstart) as (_ & _ & _ & ->).
  by destruct (DFS_run g sched' start Hbuilt Hstart) as (_ & _ & _ & ->).
Qed.

(** Two calls on slices holding the same segments, however often each:
    the same graph or the same error, and paths as alike as the runs of
    [DFS] from one start are. *)
Lemma calculate_related (R : relation (list string)) `{!Equivalence R}
    ctx ctx' scheds scheds' segments segments' :
  (∀ a b, R a b → length a = length b) →
  (∀ g start n n', built g → has_vertex g start →
     R (walk (scheds' n') start g) (walk (scheds n) start g)) →
  (∀ el, el ∈ segments ↔ el ∈ segments') →
  steps fresh (sort_Slice less segments') = steps fresh (sort_Slice less segments)
  ∧ out_err (calculate ctx' scheds' segments')
    = out_err (calculate ctx scheds segments)
  ∧ R (out_path (calculate ctx' scheds' segments'))
      (out_path (calculate ctx scheds segments)).
Proof.
  intros R_length Hwalk Hsame.
  set (l := sort_Slice less segments). set (l' := sort_Slice less segments').
  assert (squeeze l = squeeze l') as Hsqueeze.
  { apply (squeeze_sorted_eq (not_after less));
      [apply (sort_Slice_sorted less less_asym _)..|].
    intros el. unfold l, l'. by rewrite !sort_Slice_Permutation. }
  assert (steps fresh l' = steps fresh l) as Hsteps.
  { rewrite (steps_stutter (squeeze l') l') by (apply stutter_squeeze || apply New_built).
    rewrite (steps_stutter (squeeze l) l) by (apply stutter_squeeze || apply New_built).
    by rewrite Hsqueeze. }
  split; [done|]. rewrite !calculate_run. cbv zeta. fold l l'. rewrite Hsteps.
  destruct (steps fresh l) as [g [[]|err]] eqn:Hg; [|done].
  split; [done|]. simpl.
  destruct (steps_spec fresh l g (Ok tt) New_built Hg) as (Hbuilt & _ & Hin).
  assert (∀ el, el ∈ l' → present g el) as Hin'.
  { intros el Hel. apply Hin. unfold l, l' in *.
    rewrite sort_Slice_Permutation in *. by apply Hsame. }
  set (canon := λ start, walk (scheds 0) start g).
  assert (∀ n el, present g el → R (walk (scheds' n) el.1 g) (canon el.1))
    as Hcanon'.
  { intros n el [Hv _]. by apply Hwalk. }
  assert (∀ n el, present g el → R (walk (scheds n) el.1 g) (canon el.1))
    as Hcanon.
  { intros n el Hel. trans (walk (scheds' 0) el.1 g); [|by apply Hcanon'].
    symmetry. destruct Hel as [Hv _]. by apply Hwalk. }
  assert (∀ el, el ∈ squeeze l → present g el) as Hin0.
  { intros el Hel. apply Hin. by apply (proj1 (elem_of_squeeze _ _)). }
  trans (longest_of (walks scheds 0 (squeeze l) g) []).
  - apply (longest_of_stutter R R_length canon (squeeze l) l');
      [rewrite Hsqueeze; apply stutter_squeeze| | |done].
    + apply walks_follows. intros n el Hel. by apply Hcanon', Hin'.
    + apply walks_follows. intros n el Hel. by apply Hcanon, Hin0.
  - symmetry.
    apply (longest_of_stutter R R_length canon (squeeze l) l);
      [apply stutter_squeeze| | |done].
    + apply walks_follows. intros n el Hel. by apply Hcanon, Hin.
    + apply walks_follows. intros n el Hel. by apply Hcanon, Hin0.
Qed.






End synthesis.

(** ** The engine on a graph of two airports *)

(** C1 (as stated) fails: a self-loop on a hash that is no vertex is
    turned down for the missing vertex, not for the cycle. *)
Lemma AddEdge_absent_self_loop :
  let g := New StringHash [Directed; PreventCyclesOpt] in
  PreventCycles (traits g) = true
  ∧ AddEdge in_order "A" "A" g
    = (g, Err (Errorf "source vertex %v: %w" ["A"] ErrVertexNotFound))
  ∧ snd (AddEdge in_order "A" "A" g) ≠ Err ErrEdgeCreatesCycle.
Proof. by vm_compute. Qed.

Lemma PreventCycles_acyclic_witness :
  PreventCycles (traits (New StringHash [Directed; PreventCyclesOpt])) = true
  ∧ acyclic (run_ops two_airports (New StringHash [Directed; PreventCyclesOpt])).
Proof.
  split; [reflexivity|].
  apply (PreventCycles_acyclic StringHash [Directed; PreventCyclesOpt]
           two_airports).
  reflexivity.
Defined.

Lemma AddEdge_cycle_rejected_witness :
  let d := run_ops two_airports (New StringHash [Directed; PreventCyclesOpt]) in
  path d "A" "B"
  ∧ AddEdge in_order "B" "A" d = (d, Err ErrEdgeCreatesCycle).
Proof.
  cbv zeta.
  assert (path (run_ops two_airports (New StringHash [Directed; PreventCyclesOpt]))
            "A" "B") as Hpath.
  { apply tc_once. exists ("A", "B"). vm_compute. reflexivity. }
  split; [exact Hpath|].
  apply (AddEdge_cycle_rejected StringHash [Directed; PreventCyclesOpt]
           two_airports in_order "B" "A").
  - reflexivity.
  - exists "B". vm_compute. reflexivity.
  - exists "A". vm_compute. reflexivity.
  - right. exact Hpath.
Defined.

(** * Further properties of the code *)

(** ** The operations of the graph, whatever its traits *)

Section operations.
Context `{Countable K} {T : Type}.
Implicit Types (d : directed K T) (sched : Sched).

(** A graph is its three fields. *)
Lemma directed_eq d d' :
  hash d = hash d' → traits d = traits d' →
  vertices (store d) = vertices (store d') →
  edges (store d) = edges (store d') → d = d'.
Proof.
  destruct d as [h t [vs es]], d' as [h' t' [vs' es']]. simpl.
  by intros -> -> -> ->.
Qed.

(** [Edge] reads the edge and then the two vertices. *)
Lemma GetEdge_lookup d source target :
  GetEdge source target d
  = (d, match edges (store d) !! (source, target) with
        | None => Err ErrEdgeNotFound
        | Some _ =>
            match vertices (store d) !! source, vertices (store d) !! target with
            | Some vs, Some vt => Ok (mkEdge vs vt)
            | _, _ => Err ErrVertexNotFound
            end
        end).
Proof.
  unfold GetEdge, store_Edge, store_Vertex. run_M.
  destruct (edges (store d) !! (source, target)); run_M; [|done].
  destruct (vertices (store d) !! source); run_M; [|done].
  by destruct (vertices (store d) !! target).
Qed.

Lemma AddEdge_unchecked d sched source target :
  PreventCycles (traits d) = false →
  has_vertex d source → has_vertex d target →
  edges (store d) !! (source, target) = None →
  AddEdge sched source target d = (commit d source target, Ok tt).
Proof.
  intros Htraits [vs Hs] [vt Ht] He.
  unfold AddEdge. run_M. unfold store_Vertex at 1 2. run_M.
  rewrite Hs, Ht, GetEdge_lookup, He. simpl. rewrite Htraits.
  unfold addEdge, store_AddEdge. run_M. by rewrite Hs, Ht, He.
Qed.

(** [AddEdge] returns an error and the graph as it was, or stores the
    edge. *)
Lemma AddEdge_cases d sched source target :
  (∃ err, AddEdge sched source target d = (d, Err err))
  ∨ (AddEdge sched source target d = (commit d source target, Ok tt)
     ∧ has_vertex d source ∧ has_vertex d target
     ∧ edges (store d) !! (source, target) = None
     ∧ (PreventCycles (traits d) = true →
        ¬ (source = target ∨ path d target source))).
Proof.
  destruct (decide (has_vertex d source)) as [Hs|Hs];
    [|left; eexists; by apply AddEdge_no_source].
  destruct (decide (has_vertex d target)) as [Ht|Ht];
    [|left; eexists; by apply AddEdge_no_target].
  destruct (edges (store d) !! (source, target)) as [e|] eqn:He;
    [left; eexists; by apply AddEdge_exists|].
  destruct (PreventCycles (traits d)) eqn:Htraits.
  - destruct (AddEdge_run d source target Htraits Hs Ht He) as (b & Hb & Hrun).
    rewrite Hrun. destruct b; [left; by eexists|].
    right. repeat split; try done. intros _ Hcycle. by apply Hb in Hcycle.
  - right. rewrite AddEdge_unchecked by done. done.
Qed.

Lemma commit_ne d source target :
  edges (store d) !! (source, target) = None → commit d source target ≠ d.
Proof.
  intros He Heq. apply (f_equal (λ d, edges (store d) !! (source, target))) in Heq.
  simpl in Heq. rewrite lookup_insert_eq, He in Heq. done.
Qed.

(** X1.  An operation changes the graph exactly when it returns no
    error. *)
Theorem operation_changes_iff_succeeds (o : op K T) d :
  match run_op o d with
  | (d', Ok _) => d' ≠ d
  | (d', Err _) => d' = d
  end.
Proof.
  destruct o as [value|sched source target|k|source target]; simpl.
  - unfold AddVertex, store_AddVertex. run_M.
    destruct (vertices (store d) !! hash d value) eqn:Hv; [done|]. simpl.
    intros Heq. apply (f_equal (λ d', vertices (store d') !! hash d value)) in Heq.
    simpl in Heq. by rewrite lookup_insert_eq, Hv in Heq.
  - destruct (AddEdge_cases d sched source target)
      as [[err ->]|(-> & _ & _ & He & _)]; [done|]. by apply commit_ne.
  - unfold RemoveVertex, store_RemoveVertex. run_M.
    destruct (has_edges (store d) k); [done|].
    destruct (vertices (store d) !! k) eqn:Hv; [|done]. simpl.
    intros Heq. apply (f_equal (λ d', vertices (store d') !! k)) in Heq.
    simpl in Heq. by rewrite lookup_delete_eq, Hv in Heq.
  - unfold RemoveEdge. run_M. rewrite GetEdge_lookup.
    destruct (edges (store d) !! (source, target)) eqn:He; [|done].
    destruct (vertices (store d) !! source); [|done].
    destruct (vertices (store d) !! target); [|done].
    unfold store_RemoveEdge. run_M.
    intros Heq. apply (f_equal (λ d', edges (store d') !! (source, target))) in Heq.
    simpl in Heq. by rewrite lookup_delete_eq, He in Heq.
Qed.

(** X2.  After [AddEdge] has stored an edge, [Edge] finds it and returns
    the values of its two vertices, [Edges] lists it by its hashes, and
    [AddEdge] for the same pair returns [ErrEdgeAlreadyExists] and changes
    nothing. *)
Theorem AddEdge_then_Edge d sched source target d' :
  AddEdge sched source target d = (d', Ok tt) →
  (∃ vs vt, vertices (store d) !! source = Some vs
     ∧ vertices (store d) !! target = Some vt
     ∧ GetEdge source target d' = (d', Ok (mkEdge vs vt)))
  ∧ (∀ code, ∃ es, Edges code d' = (d', Ok es) ∧ mkEdge source target ∈ es)
  ∧ (∀ sched', AddEdge sched' source target d' = (d', Err ErrEdgeAlreadyExists)).
Proof.
  intros Hadd.
  destruct (AddEdge_cases d sched source target)
    as [[err Herr]|(Hrun & [vs Hs] & [vt Ht] & He & _)]; [congruence|].
  assert (d' = commit d source target) as -> by congruence.
  split; [|split].
  - exists vs, vt. split; [done|]. split; [done|].
    rewrite GetEdge_lookup. simpl. by rewrite lookup_insert_eq, Hs, Ht.
  - intros code. eexists. split; [done|].
    rewrite shuffle_Permutation. apply list_elem_of_fmap.
    exists (source, target, mkEdge source target). split; [done|].
    apply elem_of_map_to_list. simpl. by rewrite lookup_insert_eq.
  - intros sched'. apply AddEdge_exists; [by exists vs|by exists vt|].
    simpl. rewrite lookup_insert_eq. by eexists.
Qed.

(** X3.  [RemoveEdge] undoes [AddEdge]: it returns no error and the graph
    is the one [AddEdge] was given. *)
Theorem AddEdge_then_RemoveEdge d sched source target d' :
  AddEdge sched source target d = (d', Ok tt) →
  RemoveEdge source target d' = (d, Ok tt).
Proof.
  intros Hadd.
  destruct (AddEdge_cases d sched source target)
    as [[err Herr]|(Hrun & [vs Hs] & [vt Ht] & He & _)]; [congruence|].
  assert (d' = commit d source target) as -> by congruence.
  unfold RemoveEdge. run_M. rewrite GetEdge_lookup. simpl.
  rewrite lookup_insert_eq, Hs, Ht. unfold store_RemoveEdge. run_M.
  f_equal. apply directed_eq; simpl; [done..|]. by apply delete_insert_id.
Qed.

(** X4.  [RemoveEdge] takes out the one edge and nothing else, after
    which [Edge] and [RemoveEdge] for the pair return [ErrEdgeNotFound].
    For a pair that is no edge it returns [ErrEdgeNotFound] as it is, not
    wrapped. *)
Theorem RemoveEdge_outcome d source target :
  match RemoveEdge source target d with
  | (d', Ok _) =>
      is_Some (edges (store d) !! (source, target))
      ∧ hash d' = hash d ∧ traits d' = traits d
      ∧ vertices (store d') = vertices (store d)
      ∧ (∀ k, k ≠ (source, target) →
           edges (store d') !! k = edges (store d) !! k)
      ∧ GetEdge source target d' = (d', Err ErrEdgeNotFound)
      ∧ RemoveEdge source target d' = (d', Err ErrEdgeNotFound)
  | (d', Err err) =>
      d' = d
      ∧ ((err = ErrEdgeNotFound ∧ edges (store d) !! (source, target) = None)
         ∨ (err = ErrVertexNotFound
            ∧ ¬ (has_vertex d source ∧ has_vertex d target)))
  end.
Proof.
  unfold RemoveEdge at 1. run_M. rewrite GetEdge_lookup.
  destruct (edges (store d) !! (source, target)) as [e|] eqn:He;
    [|split; [done|by left]].
  destruct (vertices (store d) !! source) as [vs|] eqn:Hs; cycle 1.
  { split; [done|]. right. split; [done|]. intros [[? ?] _].
    unfold has_vertex in *. congruence. }
  destruct (vertices (store d) !! target) as [vt|] eqn:Ht; cycle 1.
  { split; [done|]. right. split; [done|]. intros [_ [? ?]].
    unfold has_vertex in *. congruence. }
  unfold store_RemoveEdge. run_M.
  split; [done|]. split; [done|]. split; [done|]. split; [done|].
  split; [intros k Hk; simpl; by rewrite lookup_delete_ne|].
  assert (∀ d', edges (store d') !! (source, target) = None →
                GetEdge source target d' = (d', Err ErrEdgeNotFound)) as Hgone.
  { intros d' Hd'. by rewrite GetEdge_lookup, Hd'. }
  split; [apply Hgone; simpl; by rewrite lookup_delete_eq|].
  unfold RemoveEdge. run_M. rewrite Hgone; [done|].
  simpl. by rewrite lookup_delete_eq.
Qed.

(** X5.  On a graph that does not prevent cycles, [AddEdge] runs no cycle
    check: a new edge between two vertices is stored, also when it closes
    a cycle. *)
Theorem AddEdge_without_PreventCycles d sched source target :
  PreventCycles (traits d) = false →
  has_vertex d source → has_vertex d target →
  edges (store d) !! (source, target) = None →
  AddEdge sched source target d = (commit d source target, Ok tt)
  ∧ (source = target ∨ path d target source →
     path (commit d source target) source source).
Proof.
  intros Htraits Hs Ht He. split; [by apply AddEdge_unchecked|].
  assert (has_edge (commit d source target) source target) as Hnew.
  { apply has_edge_commit; [done|]. by right. }
  intros [<-|Hpath]; [by apply tc_once|].
  apply tc_l with target; [done|].
  apply (path_mono _ d); [|done].
  intros a b Hab. apply has_edge_commit; [done|]. by left.
Qed.

(** X6.  On a graph without cycles, for a new edge between two vertices,
    [CreatesCycle] returns true exactly when the graph with the edge in it
    has a cycle. *)
Theorem CreatesCycle_would_close d sched source target :
  acyclic d → has_vertex d source → has_vertex d target →
  edges (store d) !! (source, target) = None →
  ∃ b, CreatesCycle sched source target d = (d, Ok b)
       ∧ (b = true ↔ ¬ acyclic (commit d source target)).
Proof.
  intros Hacyclic Hs Ht He.
  destruct (CreatesCycle_run d source target Hs Ht) as (b & Hb & Hrun).
  exists b. split; [done|]. split.
  - intros Htrue Hafter. apply Hb in Htrue. apply (Hafter source).
    assert (has_edge (commit d source target) source target) as Hnew.
    { apply has_edge_commit; [done|]. by right. }
    destruct Htrue as [<-|Hpath]; [by apply tc_once|].
    apply tc_l with target; [done|].
    apply (path_mono _ d); [|done].
    intros x y Hxy. apply has_edge_commit; [done|]. by left.
  - intros Hcycle. destruct b; [done|]. destruct Hcycle.
    apply acyclic_commit; [done..|]. rewrite <- Hb. done.
Qed.

End operations.

(** ** The two maps and the size of a graph *)

Section maps.
Context `{Countable K} {T : Type}.
Implicit Types (d : directed K T) (sched : Sched)
  (m : gmap K (gmap K (Edge K))) (es : list (Edge K)).

(** The second loop of [AdjacencyMap] stops at the first edge whose
    source has no bucket. *)
Lemma fill_buckets_None m es (e : Edge K) :
  e ∈ es → m !! Source e = None → fill_buckets m es = None.
Proof.
  revert m. induction es as [|edge es IH]; intros m Hin Hnone.
  - by apply elem_of_nil in Hin.
  - simpl. destruct (m !! Source edge) as [bucket|] eqn:Hb; [|done].
    apply elem_of_cons in Hin as [->|Hin]; [congruence|].
    apply IH; [done|]. rewrite lookup_insert_ne; [done|]. congruence.
Qed.

(** X7.  [PredecessorMap] makes the bucket an edge needs and never
    fails.  [AdjacencyMap] does not: it returns its map when the source of
    every edge is a vertex, and panics on the store into a nil map when
    some edge has a source that is no vertex. *)
Theorem AdjacencyMap_nil_bucket d sched :
  PredecessorMap sched d = (d, Ok (predecessor_map d))
  ∧ ((∀ x y, has_edge d x y → has_vertex d x) →
     AdjacencyMap sched d = (d, Ok (adjacency_map d)))
  ∧ ((∃ x y, has_edge d x y ∧ ¬ has_vertex d x) →
     AdjacencyMap sched d = (d, Err (Panic "assignment to entry in nil map"))).
Proof.
  split; [apply PredecessorMap_run|]. split; [apply AdjacencyMap_run|].
  intros (x & y & Hxy & Hx).
  unfold AdjacencyMap, store_ListVertices, store_ListEdges. run_M.
  rewrite (fill_buckets_None _ _ (mkEdge x y)); [done| |].
  - rewrite shuffle_Permutation. by apply elem_of_listed_edges.
  - simpl. rewrite empty_buckets_lookup.
    rewrite decide_False; [done|]. by rewrite elem_of_range_keys.
Qed.

(** More vertices and fewer edges keep the store in order. *)
Lemma well_formed_shrink d d' :
  (∀ k e, edges (store d') !! k = Some e → edges (store d) !! k = Some e) →
  (∀ x y, has_edge d' x y → has_vertex d x → has_vertex d' x) →
  (∀ x y, has_edge d' x y → has_vertex d y → has_vertex d' y) →
  well_formed d → well_formed d'.
Proof.
  intros Hedges Hsources Htargets [Hkeyed Hends]. split.
  - intros k e He. by apply Hkeyed, Hedges.
  - intros x y Hxy.
    assert (has_edge d x y) as Hxy'.
    { destruct Hxy as [k Hk]. exists k. by apply Hedges. }
    destruct (Hends x y Hxy') as [Hx Hy]. split; eauto.
Qed.

Lemma run_op_well_formed (o : op K T) d :
  well_formed d → well_formed (run_op o d).1.
Proof.
  intros Hwf. destruct o as [value|sched source target|k|source target]; simpl.
  - unfold AddVertex, store_AddVertex. run_M.
    destruct (vertices (store d) !! hash d value) eqn:Hv; [done|]. simpl.
    assert (∀ x, has_vertex d x →
                 is_Some (<[hash d value := value]> (vertices (store d)) !! x))
      as Hkept.
    { intros x [v Hx]. destruct (decide (hash d value = x)) as [<-|Hne];
        [congruence|]. rewrite lookup_insert_ne by done. by exists v. }
    apply (well_formed_shrink d); [done| | |done]; intros x y _; apply Hkept.
  - destruct (AddEdge_cases d sched source target)
      as [[err ->]|(-> & Hs & Ht & He & _)]; [done|].
    by apply well_formed_commit.
  - unfold RemoveVertex, store_RemoveVertex. run_M.
    destruct (has_edges (store d) k) eqn:Hno; [done|].
    destruct (vertices (store d) !! k); [|done]. simpl.
    apply (well_formed_shrink d); [done| | |done]; intros x y Hxy Hv;
      destruct (has_edges_false d k x y Hwf Hno Hxy) as [Hx Hy];
      unfold has_vertex; simpl; by rewrite lookup_delete_ne.
  - unfold RemoveEdge. run_M. rewrite GetEdge_lookup.
    destruct (edges (store d) !! (source, target)); [|done].
    destruct (vertices (store d) !! source); [|done].
    destruct (vertices (store d) !! target); [|done].
    unfold store_RemoveEdge. run_M.
    apply (well_formed_shrink d); [|done..].
    intros k e'. simpl. by intros [_ ?]%lookup_delete_Some.
Qed.

Lemma run_ops_well_formed (ops : list (op K T)) d :
  well_formed d → well_formed (run_ops ops d).
Proof.
  revert d. induction ops as [|o ops IH]; intros d Hwf; [done|].
  apply IH. by apply run_op_well_formed.
Qed.

Lemma New_well_formed (hash : T → K) options : well_formed (New hash options).
Proof.
  split.
  - intros k e. unfold New. simpl. by rewrite lookup_empty.
  - intros x y [k Hk]. revert Hk. unfold New. simpl. by rewrite lookup_empty.
Qed.

Lemma adjacency_map_lookup d s t e :
  (adjacency_map d !!! s) !! t = Some e
  ↔ e = mkEdge s t ∧ has_edge d s t.
Proof.
  unfold adjacency_map.
  rewrite (bucket_fold_entry Source Target Edge_keyed_out).
  rewrite empty_buckets_total, lookup_empty. split.
  - intros [(He & <- & <-)|[? _]]; [|done].
    apply elem_of_listed_edges in He. by destruct e.
  - intros [-> Hst]. left. split; [|done]. by apply elem_of_listed_edges.
Qed.

Lemma predecessor_map_lookup d s t e :
  (predecessor_map d !!! t) !! s = Some e
  ↔ e = mkEdge s t ∧ has_edge d s t.
Proof.
  unfold predecessor_map.
  rewrite (bucket_fold_entry Target Source Edge_keyed_in).
  rewrite empty_buckets_total, lookup_empty. split.
  - intros [(He & <- & <-)|[? _]]; [|done].
    apply elem_of_listed_edges in He. by destruct e.
  - intros [-> Hst]. left. split; [|done]. by apply elem_of_listed_edges.
Qed.

Lemma map_bucket d (outer inner : Edge K → K) k :
  (∀ e e', outer e = outer e' → inner e = inner e' → e = e') →
  (∀ e, e ∈ (map_to_list (edges (store d))).*2 → has_vertex d (outer e)) →
  is_Some (bucket_fold outer inner
             (empty_buckets (range_keys [] (vertices (store d))))
             (map_to_list (edges (store d))).*2 !! k)
  ↔ has_vertex d k.
Proof.
  intros keyed Hends.
  rewrite (bucket_fold_dom outer inner keyed), empty_buckets_lookup. split.
  - intros [Hk|(e & He & <-)]; [|by apply Hends].
    destruct (decide (k ∈ _)) as [Hin|]; [|by destruct Hk].
    by apply elem_of_range_keys in Hin.
  - intros Hk. left. rewrite decide_True; [done|]. by apply elem_of_range_keys.
Qed.

(** X8.  On a graph made by [New], after any operations, [AdjacencyMap]
    and [PredecessorMap] return no error; each has a bucket for every
    vertex, also one without edges, and for no other hash; and the entry
    of [t] in the bucket of [s] of the one is the entry of [s] in the
    bucket of [t] of the other: the edge from [s] to [t] if the store
    holds it, and none if not. *)
Theorem maps_of_a_graph (hash : T → K) options ops sched :
  let d := run_ops ops (New hash options) in
  ∃ m p,
    AdjacencyMap sched d = (d, Ok m) ∧ PredecessorMap sched d = (d, Ok p)
    ∧ (∀ k, is_Some (m !! k) ↔ has_vertex d k)
    ∧ (∀ k, is_Some (p !! k) ↔ has_vertex d k)
    ∧ (∀ s t, (m !!! s) !! t = (p !!! t) !! s)
    ∧ (∀ s t, (m !!! s) !! t
              = match edges (store d) !! (s, t) with
                | Some _ => Some (mkEdge s t)
                | None => None
                end).
Proof.
  intros d.
  assert (well_formed d) as Hwf by apply run_ops_well_formed, New_well_formed.
  exists (adjacency_map d), (predecessor_map d).
  split; [apply AdjacencyMap_run; intros x y Hxy; by apply (wf_ends d Hwf x y)|].
  split; [apply PredecessorMap_run|].
  assert (∀ s t, (adjacency_map d !!! s) !! t
                 = match edges (store d) !! (s, t) with
                   | Some _ => Some (mkEdge s t)
                   | None => None
                   end) as Hentry.
  { intros s t. destruct (edges (store d) !! (s, t)) as [e|] eqn:He.
    - apply adjacency_map_lookup. split; [done|].
      apply (has_edge_keyed d s t Hwf). by eexists.
    - apply eq_None_not_Some. intros [e [_ Hst]%adjacency_map_lookup].
      apply (has_edge_keyed d s t Hwf) in Hst as [? ?]. congruence. }
  split; [|split; [|split; [|done]]].
  - intros k. apply (map_bucket d Source Target k Edge_keyed_out).
    intros e He%elem_of_listed_edges. by apply (wf_ends d Hwf) in He as [? _].
  - intros k. apply (map_bucket d Target Source k Edge_keyed_in).
    intros e He%elem_of_listed_edges. by apply (wf_ends d Hwf) in He as [_ ?].
  - intros s t. rewrite Hentry. symmetry.
    destruct (edges (store d) !! (s, t)) as [e|] eqn:He.
    + apply predecessor_map_lookup. split; [done|].
      apply (has_edge_keyed d s t Hwf). by eexists.
    + apply eq_None_not_Some. intros [e [_ Hst]%predecessor_map_lookup].
      apply (has_edge_keyed d s t Hwf) in Hst as [? ?]. congruence.
Qed.

Lemma foldl_sum {A} (f : A → nat) (l : list A) (n : nat) :
  foldl (λ size x, size + f x) n l = n + sum_list_with f l.
Proof.
  revert n. induction l as [|x l IH]; intros n; simpl; [lia|].
  rewrite IH. lia.
Qed.

Lemma buckets_size_insert m x (b b' : gmap K (Edge K)) :
  m !! x = Some b →
  buckets_size (<[x := b']> m) + size b = buckets_size m + size b'.
Proof.
  intros Hx. rewrite <- (insert_delete_id m x b) at 2 by done.
  rewrite <- (insert_delete_eq m x b'). unfold buckets_size.
  rewrite !map_to_list_insert by apply lookup_delete_eq. simpl. lia.
Qed.

Lemma buckets_size_fold m es :
  NoDup es →
  (∀ e, e ∈ es → is_Some (m !! Source e)) →
  (∀ e, e ∈ es → (m !!! Source e) !! Target e = None) →
  buckets_size (bucket_fold Source Target m es) = buckets_size m + length es.
Proof.
  revert m. induction es as [|e es IH]; intros m Hnodup Hsome Hnew; simpl.
  { unfold bucket_fold. simpl. lia. }
  apply NoDup_cons in Hnodup as [He Hnodup].
  destruct (Hsome e) as [b Hb]; [by left|].
  assert ((m !!! Source e : gmap K (Edge K)) = b) as Hb'
    by (by rewrite lookup_total_alt, Hb).
  unfold bucket_fold in *. simpl. rewrite IH; [|done| |].
  - pose proof (buckets_size_insert m (Source e) b (<[Target e := e]> b) Hb)
      as Hsize.
    rewrite map_size_insert_None in Hsize; [rewrite Hb'; lia|].
    rewrite <- Hb'. apply Hnew. by left.
  - intros e' He'. destruct (decide (Source e = Source e')) as [<-|Hne].
    + rewrite lookup_insert_eq. by eexists.
    + rewrite lookup_insert_ne by done. apply Hsome. by right.
  - intros e' He'. destruct (decide (Source e = Source e')) as [Heq|Hne].
    + rewrite <- Heq, lookup_total_insert_eq, lookup_insert_ne.
      * rewrite Heq. apply Hnew. by right.
      * intros Ht. apply He. by rewrite (Edge_keyed_out e e').
    + rewrite lookup_total_insert_ne by done. apply Hnew. by right.
Qed.

Lemma buckets_size_empty (vs : list K) : buckets_size (empty_buckets vs) = 0.
Proof.
  unfold buckets_size.
  assert (∀ kb, kb ∈ map_to_list (empty_buckets vs) → size kb.2 = 0) as Hall.
  { intros [k b] Hkb%elem_of_map_to_list. rewrite empty_buckets_lookup in Hkb.
    destruct (decide (k ∈ vs)); [|done]. by injection Hkb as <-. }
  induction (map_to_list (empty_buckets vs)) as [|kb l IH]; [done|].
  simpl. rewrite (Hall kb) by (by left). apply IH. intros kb' ?. apply Hall.
  by right.
Qed.

Lemma NoDup_listed_edges d :
  well_formed d → NoDup (map_to_list (edges (store d))).*2.
Proof.
  intros Hwf. apply NoDup_fmap_2_strong; [|apply NoDup_map_to_list].
  intros [k e] [k' e'] Hk%elem_of_map_to_list Hk'%elem_of_map_to_list. simpl.
  intros <-. f_equal.
  apply (wf_keyed d Hwf) in Hk. apply (wf_keyed d Hwf) in Hk'.
  rewrite Hk in Hk'. injection Hk' as H1 H2.
  destruct k, k'. simpl in *. congruence.
Qed.

Lemma buckets_size_adjacency_map d :
  well_formed d → buckets_size (adjacency_map d) = size (edges (store d)).
Proof.
  intros Hwf. unfold adjacency_map. rewrite buckets_size_fold.
  - by rewrite buckets_size_empty, length_fmap, length_map_to_list.
  - by apply NoDup_listed_edges.
  - intros e He%elem_of_listed_edges.
    apply (wf_ends d Hwf) in He as [Hs _]. rewrite empty_buckets_lookup.
    rewrite decide_True; [done|]. by apply elem_of_range_keys.
  - intros e _. by rewrite empty_buckets_total.
Qed.

(** X9.  On a graph made by [New], after any operations, [Size] returns
    the number of edges the store holds and no error, in whatever order
    the maps are walked. *)
Theorem Size_counts_edges (hash : T → K) options ops sched :
  let d := run_ops ops (New hash options) in
  Size sched d = (d, Ok (size (edges (store d)))).
Proof.
  intros d.
  assert (well_formed d) as Hwf by apply run_ops_well_formed, New_well_formed.
  unfold Size. rewrite AdjacencyMap_run
    by (intros x y Hxy; by apply (wf_ends d Hwf x y)).
  rewrite foldl_sum, shuffle_Permutation. simpl.
  by rewrite <- buckets_size_adjacency_map.
Qed.

End maps.

(** ** Traits and the equality of edges *)

Section traits.
Context `{Countable K} {T : Type}.
Implicit Types (d : directed K T) (p : Traits) (options : list (Traits → Traits)).

Lemma options_differ :
  Directed ≠ Acyclic ∧ Directed ≠ PreventCyclesOpt ∧ Acyclic ≠ PreventCyclesOpt.
Proof.
  repeat split; intros Heq;
    apply (f_equal (λ option, option (mkTraits false false false))) in Heq;
    discriminate.
Qed.

Lemma options_fold p options :
  Forall (λ option, option = Directed ∨ option = Acyclic
                    ∨ option = PreventCyclesOpt) options →
  let t := foldl (λ p option, option p) p options in
  (IsDirected t = true ↔ IsDirected p = true ∨ Directed ∈ options)
  ∧ (PreventCycles t = true ↔ PreventCycles p = true ∨ PreventCyclesOpt ∈ options)
  ∧ (IsAcyclic t = true
     ↔ IsAcyclic p = true ∨ Acyclic ∈ options ∨ PreventCyclesOpt ∈ options).
Proof.
  destruct options_differ as (Hda & Hdp & Hap).
  intros Hall. revert p. induction Hall as [|option options Hoption _ IH];
    intros p; simpl.
  { rewrite !elem_of_nil. naive_solver. }
  destruct (IH (option p)) as (IHd & IHp & IHa). rewrite IHd, IHp, IHa.
  rewrite !elem_of_cons.
  destruct Hoption as [-> | [-> | ->]]; simpl; naive_solver.
Qed.

(** X10.  With the options of the package, in any order and any number, a
    graph is directed exactly if [Directed()] is among them, prevents
    cycles exactly if [PreventCycles()] is, and is marked acyclic exactly if
    [Acyclic()] or [PreventCycles()] is; so a graph that prevents cycles is
    marked acyclic.  The store is the one handed in. *)
Theorem traits_of_options (hash : T → K) (st : memoryStore K T) options :
  Forall (λ option, option = Directed ∨ option = Acyclic
                    ∨ option = PreventCyclesOpt) options →
  let d := NewWithStore hash st options in
  (IsDirected (traits d) = true ↔ Directed ∈ options)
  ∧ (PreventCycles (traits d) = true ↔ PreventCyclesOpt ∈ options)
  ∧ (IsAcyclic (traits d) = true
     ↔ Acyclic ∈ options ∨ PreventCyclesOpt ∈ options)
  ∧ (PreventCycles (traits d) = true → IsAcyclic (traits d) = true)
  ∧ store d = st.
Proof.
  intros Hall d.
  destruct (options_fold (mkTraits false false false) options Hall)
    as (Hd & Hp & Ha).
  unfold d, NewWithStore, newDirected. simpl in *.
  rewrite Hd, Hp, Ha. naive_solver.
Qed.

(** X11.  [edgesAreEqual] compares the hashes of the ends: it is
    reflexive, symmetric and transitive, it changes nothing, and under a
    hash that gives different values different hashes it holds of equal
    edges only. *)
Theorem edgesAreEqual_equivalence d :
  let same a b := edgesAreEqual a b d = (d, Ok true) in
  (∀ a b, ∃ r, edgesAreEqual a b d = (d, Ok r))
  ∧ (∀ a, same a a)
  ∧ (∀ a b, same a b → same b a)
  ∧ (∀ a b c, same a b → same b c → same a c)
  ∧ ((∀ x y, hash d x = hash d y → x = y) → ∀ a b, same a b ↔ a = b).
Proof.
  assert (∀ a b, edgesAreEqual a b d = (d, Ok true)
                 ↔ hash d (Source a) = hash d (Source b)
                   ∧ hash d (Target a) = hash d (Target b)) as Hsame.
  { intros a b. unfold edgesAreEqual. run_M. split.
    - intros [= Hb].
      by apply andb_prop in Hb as [?%bool_decide_eq_true ?%bool_decide_eq_true].
    - intros [-> ->]. by rewrite !bool_decide_eq_true_2. }
  cbv zeta. split; [intros a b; unfold edgesAreEqual; run_M; by eexists|].
  split; [intros a; by apply Hsame|]. split.
  { intros a b Hab. apply Hsame in Hab as [? ?]. by apply Hsame. }
  split.
  { intros a b c Hab Hbc. apply Hsame in Hab as [? ?]. apply Hsame in Hbc as [? ?].
    apply Hsame. split; congruence. }
  intros Hinj a b. rewrite Hsame. split.
  - intros [Hs Ht]. apply Hinj in Hs. apply Hinj in Ht.
    destruct a, b. simpl in *. congruence.
  - by intros ->.
Qed.

End traits.

(** ** calculate: which inputs it turns down *)

Section round_trips.
Implicit Types (g d : directed string string) (sched : Sched)
  (scheds : nat → Sched) (el : segment) (segments : list segment)
  (ctx : Context).

Lemma tc_mono {A} (R R' : relation A) (x y : A) :
  (∀ a b, R a b → R' a b) → tc R x y → tc R' x y.
Proof.
  intros Hsub. induction 1 as [x y Hxy|x y z Hxy _ IH].
  - apply tc_once. by apply Hsub.
  - apply tc_l with y; [by apply Hsub|done].
Qed.

Lemma has_edge_ensure d k x y : has_edge (ensure d k) x y ↔ has_edge d x y.
Proof. unfold has_edge. by rewrite ensure_edges. Qed.

(** One pass of the first loop ends with an error exactly when its
    segment would close a cycle, and else leaves the edge in the graph. *)
Lemma step_cases d el d' r :
  built d → step d el = (d', r) →
  match r with
  | Ok _ =>
      built d'
      ∧ ¬ (el.1 = el.2 ∨ path d el.2 el.1)
      ∧ ∀ x y, has_edge d' x y ↔ has_edge d x y ∨ (x, y) = el
  | Err err => err = ErrEdgeCreatesCycle ∧ (el.1 = el.2 ∨ path d el.2 el.1)
  end.
Proof.
  intros Hbuilt Hstep.
  destruct (step_spec d el d' r Hbuilt Hstep) as (Hbuilt' & _ & _).
  revert Hstep. unfold step. destruct el as [a b]. simpl.
  set (d2 := ensure (ensure d a) b).
  assert (built d2) as Hbuilt2 by (by apply ensure_built, ensure_built).
  assert (∀ x y, has_edge d2 x y ↔ has_edge d x y) as Hsame.
  { intros x y. unfold d2. by rewrite !has_edge_ensure. }
  assert (∀ x y, path d x y ↔ path d2 x y) as Hpath.
  { intros x y. split; apply path_mono; intros u v; apply Hsame. }
  destruct Hbuilt2 as [Hsafe2 _ _].
  destruct (edges (store d2) !! (a, b)) as [e|] eqn:He.
  - intros [= <- <-]. split; [done|].
    assert (has_edge d2 a b) as Hel.
    { apply (has_edge_keyed d2 _ _ (safe_store d2 Hsafe2)). by eexists. }
    split.
    + intros [Heq|Hback%Hpath].
      * apply (safe_acyclic d2 Hsafe2 a). apply tc_once. by rewrite Heq at 2.
      * apply (safe_acyclic d2 Hsafe2 a). by apply tc_l with b.
    + intros x y. rewrite Hsame. split; [by left|]. intros [?|[= -> ->]]; [done|].
      by apply Hsame.
  - destruct (AddEdge_run d2 a b (safe_traits d2 Hsafe2)) as (c & Hc & Hrun);
      [unfold d2; apply ensure_keeps, ensure_has_vertex
      |unfold d2; apply ensure_has_vertex|done|].
    rewrite Hrun. destruct c; intros [= <- <-].
    + split; [done|]. destruct (proj1 Hc eq_refl) as [?|?%Hpath]; [by left|by right].
    + split; [done|]. split.
      * intros Hcycle. assert (false = true); [|done]. apply Hc.
        destruct Hcycle as [?|?%Hpath]; [by left|by right].
      * intros x y. rewrite has_edge_commit, Hsame by done. naive_solver.
Qed.

(** The first loop ends with an error exactly when the edges of the
    graph and the segments together lead round in a circle. *)
Lemma steps_cases d segments d' r :
  built d → steps d segments = (d', r) →
  match r with
  | Ok _ =>
      built d' ∧ ∀ x y, has_edge d' x y ↔ has_edge d x y ∨ flies segments x y
  | Err err =>
      err = ErrEdgeCreatesCycle
      ∧ ∃ a, tc (λ x y, has_edge d x y ∨ flies segments x y) a a
  end.
Proof.
  revert d. induction segments as [|el segments IH]; intros d Hbuilt; simpl.
  { intros [= <- <-]. split; [done|]. intros x y. unfold flies.
    rewrite elem_of_nil. naive_solver. }
  destruct (step d el) as [d1 [[]|err]] eqn:Hstep.
  - destruct (step_cases d el d1 (Ok tt) Hbuilt Hstep) as (Hbuilt1 & _ & Hedges).
    intros Hsteps. specialize (IH d1 Hbuilt1 Hsteps). destruct r as [[]|err].
    + destruct IH as [Hbuilt' IH]. split; [done|]. intros x y.
      rewrite IH, Hedges. unfold flies. rewrite elem_of_cons. naive_solver.
    + destruct IH as (-> & a & Ha). split; [done|]. exists a.
      apply (tc_mono _ _ _ _) with (2 := Ha). intros x y. rewrite Hedges.
      unfold flies. rewrite elem_of_cons. naive_solver.
  - destruct (step_cases d el d1 (Err err) Hbuilt Hstep) as (-> & Hcycle).
    intros [= <- <-]. split; [done|]. exists el.1.
    assert (flies (el :: segments) el.1 el.2) as Hel.
    { unfold flies. rewrite elem_of_cons. left. by destruct el. }
    destruct Hcycle as [Heq|Hback].
    + apply tc_once. right. by rewrite Heq at 2.
    + apply tc_l with el.2; [by right|].
      apply (tc_mono (has_edge d)); [|done]. by left.
Qed.

(** The graph [calculate] builds, or the error of its first loop. *)
Lemma steps_fresh segments :
  match steps fresh (sort_Slice less segments) with
  | (g, Ok _) =>
      built g ∧ (∀ x y, has_edge g x y ↔ flies segments x y)
      ∧ ¬ circular segments
  | (_, Err err) => err = ErrEdgeCreatesCycle ∧ circular segments
  end.
Proof.
  assert (∀ x y, ¬ has_edge fresh x y) as Hnone.
  { intros x y [k Hk]. revert Hk. unfold fresh, New. simpl. by rewrite lookup_empty. }
  assert (∀ x y, flies (sort_Slice less segments) x y ↔ flies segments x y)
    as Hsorted.
  { intros x y. unfold flies. by rewrite sort_Slice_Permutation. }
  destruct (steps fresh (sort_Slice less segments)) as [g r] eqn:Hsteps.
  pose proof (steps_cases fresh _ g r New_built Hsteps) as Hcases.
  destruct r as [[]|err].
  - destruct Hcases as [Hbuilt Hedges].
    assert (∀ x y, has_edge g x y ↔ flies segments x y) as Hedges'.
    { intros x y. rewrite Hedges, Hsorted. split; [|by right].
      intros [?|?]; [by destruct (Hnone x y)|done]. }
    split; [done|]. split; [done|]. intros [a Ha].
    apply (safe_acyclic g (built_safe g Hbuilt) a).
    apply (tc_mono (flies segments)); [|done]. intros x y. apply Hedges'.
  - destruct Hcases as (-> & a & Ha). split; [done|]. exists a.
    apply (tc_mono _ _ _ _) with (2 := Ha).
    intros x y [?|?%Hsorted]; [by destruct (Hnone x y)|done].
Qed.

(** X12.  [calculate] returns an error exactly when the segments lead
    round in a circle: some airport has a segment to itself, or segments
    lead from it back to it.  The error is then [ErrEdgeCreatesCycle] and
    there is no path; the order of the segments and of the map walks has no
    part in it. *)
Theorem calculate_rejects_round_trips ctx scheds segments :
  let out := calculate ctx scheds segments in
  (circular segments →
   out_err out = Some ErrEdgeCreatesCycle ∧ out_path out = [])
  ∧ (¬ circular segments → out_err out = None).
Proof.
  cbv zeta. rewrite calculate_run. cbv zeta.
  pose proof (steps_fresh segments) as Hfresh.
  destruct (steps fresh (sort_Slice less segments)) as [g [[]|err]]; simpl.
  - destruct Hfresh as (_ & _ & Hno). split; [done|done].
  - destruct Hfresh as [-> Hcircular]. split; [done|]. by intros [].
Qed.

End round_trips.

(** ** calculate: the path it returns *)

Section paths.
Implicit Types (g d : directed string string) (sched : Sched)
  (scheds : nat → Sched) (el : segment) (segments : list segment)
  (ws : list (list string)) (dfs : list string) (ctx : Context).

(** The second loop keeps what it was given, or the first of the
    longest sequences. *)
Lemma longest_of_spec ws dfs :
  (longest_of ws dfs = dfs ∧ ∀ w, w ∈ ws → length w ≤ length dfs)
  ∨ ∃ j, ws !! j = Some (longest_of ws dfs)
         ∧ length dfs < length (longest_of ws dfs)
         ∧ (∀ w, w ∈ ws → length w ≤ length (longest_of ws dfs))
         ∧ ∀ j' w, j' < j → ws !! j' = Some w →
                   length w < length (longest_of ws dfs).
Proof.
  revert dfs. induction ws as [|w ws IH]; intros dfs.
  { left. split; [done|]. intros w Hw. by apply elem_of_nil in Hw. }
  rewrite longest_of_cons.
  set (dfs1 := if bool_decide (length dfs < length w) then w else dfs).
  assert (length dfs ≤ length dfs1 ∧ length w ≤ length dfs1) as [Hdfs Hw].
  { unfold dfs1. case_bool_decide; lia. }
  destruct (IH dfs1) as [[Heq Hall]|(j & Hj & Hlt & Hall & Hfirst)].
  - rewrite Heq. unfold dfs1 in *. case_bool_decide.
    + right. exists 0. split; [done|]. split; [done|]. split.
      * intros w' [->|Hw']%elem_of_cons; [lia|by apply Hall].
      * intros j' w' Hj'. lia.
    + left. split; [done|]. intros w' [->|Hw']%elem_of_cons; [lia|by apply Hall].
  - right. exists (S j). split; [done|]. split; [lia|]. split.
    + intros w' [->|Hw']%elem_of_cons; [lia|by apply Hall].
    + intros [|j'] w' Hj' Hw'; simpl in Hw'.
      * injection Hw' as <-. lia.
      * apply (Hfirst j'); [lia|done].
Qed.

Lemma walk_length g sched sched' start :
  built g → has_vertex g start →
  length (walk sched start g) = length (walk sched' start g).
Proof. intros Hbuilt Hstart. by rewrite (walk_Permutation g sched sched'). Qed.

(** The run whose sequence [calculate] returns: none before it in the
    sorted slice is as long, none after it longer. *)
Lemma calculate_choice ctx scheds segments g :
  steps fresh (sort_Slice less segments) = (g, Ok tt) → segments ≠ [] →
  ∃ j el sched,
    sort_Slice less segments !! j = Some el
    ∧ out_path (calculate ctx scheds segments) = walk sched el.1 g
    ∧ (∀ el' sched', el' ∈ segments →
         length (walk sched' el'.1 g) ≤ length (walk sched el.1 g))
    ∧ (∀ j' el' sched', j' < j → sort_Slice less segments !! j' = Some el' →
         length (walk sched' el'.1 g) < length (walk sched el.1 g)).
Proof.
  intros Hsteps Hsome. rewrite calculate_run. cbv zeta. rewrite Hsteps. simpl.
  destruct (steps_spec fresh _ g (Ok tt) New_built Hsteps) as (Hbuilt & _ & Hin).
  set (sorted := sort_Slice less segments) in *.
  assert (∀ el, el ∈ sorted → has_vertex g el.1) as Hstart.
  { intros el Hel. by destruct (Hin el Hel). }
  destruct (longest_of_spec (walks scheds (length sorted) sorted g) [])
    as [[Heq Hall]|(j & Hj & Hlt & Hall & Hfirst)].
  - exfalso. destruct (sorted !! 0) as [el|] eqn:Hel; cycle 1.
    { apply lookup_ge_None in Hel. apply Hsome, nil_length_inv.
      rewrite <- (sort_Slice_Permutation less segments). fold sorted. lia. }
    assert (el ∈ sorted) as Hin' by (by eapply list_elem_of_lookup_2).
    pose proof (Hall _ (elem_of_lookup_imap_2
                          (λ j el, walk (scheds (length sorted + j)) el.1 g)
                          _ _ 0 Hel)) as Hle.
    destruct (DFS_run g (scheds (length sorted + 0)) el.1 Hbuilt)
      as (_ & _ & _ & Hhead); [by apply Hstart|].
    destruct (walk (scheds (length sorted + 0)) el.1 g); [done|].
    simpl in Hle. lia.
  - unfold walks in Hj. apply list_lookup_imap_Some in Hj as (el & Hel & Heq).
    exists j, el, (scheds (length sorted + j)). split; [done|]. split; [done|].
    rewrite <- Heq. split.
    + intros el' sched' Hel'.
      assert (el' ∈ sorted) as Hel'' by (unfold sorted; by rewrite sort_Slice_Permutation).
      apply list_elem_of_lookup in Hel'' as [j' Hj'].
      rewrite (walk_length g sched' (scheds (length sorted + j')))
        by (done || apply Hstart; by eapply list_elem_of_lookup_2).
      apply Hall. unfold walks.
      apply (elem_of_lookup_imap_2
               (λ j el, walk (scheds (length sorted + j)) el.1 g) _ _ j' Hj').
    + intros j' el' sched' Hlt' Hj'.
      rewrite (walk_length g sched' (scheds (length sorted + j')))
        by (done || apply Hstart; by eapply list_elem_of_lookup_2).
      apply (Hfirst j'); [done|]. unfold walks.
      apply list_lookup_imap_Some. by exists el'.
Qed.

Lemma calculate_ok ctx scheds segments :
  out_err (calculate ctx scheds segments) = None →
  ∃ g, steps fresh (sort_Slice less segments) = (g, Ok tt)
       ∧ built g ∧ (∀ x y, has_edge g x y ↔ flies segments x y).
Proof.
  rewrite calculate_run. cbv zeta. pose proof (steps_fresh segments) as Hfresh.
  destruct (steps fresh (sort_Slice less segments)) as [g [[]|err]]; [|done].
  intros _. exists g. by destruct Hfresh as (? & ? & _).
Qed.

Lemma reaches_has_edge g segments x y :
  (∀ x y, has_edge g x y ↔ flies segments x y) →
  rtc (has_edge g) x y ↔ reaches segments x y.
Proof. intros Hedges. split; apply rtc_subrel; intros a b; apply Hedges. Qed.

Lemma StronglySorted_lookup {A} (R : relation A) (l : list A) i j x y :
  StronglySorted R l → i < j → l !! i = Some x → l !! j = Some y → R x y.
Proof.
  intros Hsorted Hlt Hi Hj. rewrite <- (take_drop j l) in Hsorted.
  apply (StronglySorted_app_1_elem_of R _ _ x y Hsorted).
  - apply (list_elem_of_lookup_2 _ i). by rewrite lookup_take_lt.
  - apply (list_elem_of_lookup_2 _ 0). by rewrite lookup_drop, Nat.add_0_r.
Qed.

Lemma calculate_path ctx scheds segments :
  out_err (calculate ctx scheds segments) = None → segments ≠ [] →
  ∃ el, el ∈ segments
        ∧ head (out_path (calculate ctx scheds segments)) = Some el.1
        ∧ NoDup (out_path (calculate ctx scheds segments))
        ∧ (∀ k, k ∈ out_path (calculate ctx scheds segments)
                ↔ reaches segments el.1 k).
Proof.
  intros Herr Hsome.
  destruct (calculate_ok ctx scheds segments Herr) as (g & Hsteps & Hbuilt & Hedges).
  destruct (calculate_choice ctx scheds segments g Hsteps Hsome)
    as (j & el & sched & Hel & -> & _).
  apply list_elem_of_lookup_2 in Hel. rewrite sort_Slice_Permutation in Hel.
  destruct (steps_spec fresh _ g (Ok tt) New_built Hsteps) as (_ & _ & Hin).
  destruct (DFS_run g sched el.1 Hbuilt) as (_ & Hnodup & Hmem & Hhead).
  { apply (Hin el). by rewrite sort_Slice_Permutation. }
  exists el. split; [done|]. split; [done|]. split; [done|].
  intros k. by rewrite Hmem, (reaches_has_edge g segments).
Qed.

(** X13.  When [calculate] returns no error for a slice that is not empty,
    its path starts at the source of one of the segments, holds no airport
    twice, and holds exactly that source and the airports that can be
    reached from it along the segments. *)
Theorem calculate_path_reaches ctx scheds segments :
  let out := calculate ctx scheds segments in
  out_err out = None → segments ≠ [] →
  ∃ el, el ∈ segments
        ∧ head (out_path out) = Some el.1
        ∧ NoDup (out_path out)
        ∧ (∀ k, k ∈ out_path out ↔ reaches segments el.1 k).
Proof. intros out. apply calculate_path. Qed.

(** X14.  The path [calculate] returns is as long as any can be: no source
    of a segment reaches more airports than the path holds; and a source
    that comes before the start of the path in the order of strings reaches
    fewer. *)
Theorem calculate_start ctx scheds segments el l :
  let out := calculate ctx scheds segments in
  out_err out = None → el ∈ segments →
  NoDup l → (∀ k, k ∈ l → reaches segments el.1 k) →
  length l ≤ length (out_path out)
  ∧ (∀ first, head (out_path out) = Some first →
       String.ltb el.1 first = true → length l < length (out_path out)).
Proof.
  intros out Herr Hel Hnodup Hreach. unfold out.
  destruct (calculate_ok ctx scheds segments Herr) as (g & Hsteps & Hbuilt & Hedges).
  assert (segments ≠ []) as Hsome by (intros ->; by apply elem_of_nil in Hel).
  destruct (calculate_choice ctx scheds segments g Hsteps Hsome)
    as (j & el0 & sched & Hel0 & -> & Hmax & Hfirst).
  destruct (steps_spec fresh _ g (Ok tt) New_built Hsteps) as (_ & _ & Hin).
  assert (∀ el, el ∈ segments → has_vertex g el.1) as Hstart.
  { intros el' Hel'. apply (Hin el'). by rewrite sort_Slice_Permutation. }
  assert (length l ≤ length (walk sched el.1 g)) as Hl.
  { apply submseteq_length, NoDup_submseteq; [done|]. intros k Hk.
    destruct (DFS_run g sched el.1 Hbuilt (Hstart el Hel)) as (_ & _ & Hmem & _).
    apply Hmem, (reaches_has_edge g segments); [done|]. by apply Hreach. }
  split; [specialize (Hmax el sched Hel); lia|].
  intros first Hhead Hbefore.
  destruct (DFS_run g sched el0.1 Hbuilt) as (_ & _ & _ & Hhead0).
  { apply Hstart. apply list_elem_of_lookup_2 in Hel0.
    by rewrite sort_Slice_Permutation in Hel0. }
  rewrite Hhead0 in Hhead. injection Hhead as <-.
  assert (el ∈ sort_Slice less segments) as Hel'
    by (by rewrite sort_Slice_Permutation).
  apply list_elem_of_lookup in Hel' as [j' Hj'].
  destruct (decide (j' < j)) as [Hlt|Hge].
  { specialize (Hfirst j' el sched Hlt Hj'). lia. }
  exfalso.
  assert (less el el0 = true) as Hless by (unfold less; by rewrite Hbefore).
  destruct (decide (j = j')) as [->|Hne].
  - assert (el0 = el) as -> by congruence.
    by rewrite ltb_irrefl in Hbefore.
  - assert (not_after less el0 el) as Hafter; [|unfold not_after in Hafter; congruence].
    apply (StronglySorted_lookup _ (sort_Slice less segments) j j'); [|lia|done..].
    apply Sorted_StronglySorted; [apply _|].
    apply (sort_Slice_sorted less less_asym _).
Qed.

End paths.

(** ** calculate on the legs of one itinerary *)

Section itinerary.
Implicit Types (g d : directed string string) (sched : Sched)
  (scheds : nat → Sched) (el : segment) (segments : list segment)
  (stops : list string) (ctx : Context).

Lemma flies_legs stops a b :
  flies (legs stops) a b ↔ ∃ i, stops !! i = Some a ∧ stops !! S i = Some b.
Proof.
  unfold flies, legs, segment. rewrite elem_of_lookup_zip_with.
  setoid_rewrite lookup_tail. naive_solver.
Qed.

Lemma list_singleton_of {A} (l : list A) (a : A) :
  NoDup l → (∀ y, y ∈ l ↔ y = a) → l = [a].
Proof.
  intros Hnodup Hmem. destruct l as [|x l].
  { pose proof (proj2 (Hmem a) eq_refl) as Ha. by apply elem_of_nil in Ha. }
  apply NoDup_cons in Hnodup as [Hx Hnodup].
  assert (x = a) as -> by (apply Hmem; by left).
  destruct l as [|y l]; [done|].
  assert (y = a) as -> by (apply Hmem; right; by left).
  destruct Hx. by left.
Qed.

Lemma list_nil_of {A} (l : list A) : (∀ y, y ∉ l) → l = [].
Proof. intros Hnone. destruct l as [|x l]; [done|]. destruct (Hnone x). by left. Qed.

(** The keys of the bucket of [c], where [c] has the one successor
    [next] or none. *)
Lemma range_keys_successor g code c (next : option string) :
  (∀ y, has_edge g c y ↔ next = Some y) →
  range_keys code (adjacency_map g !!! c) = option_list next.
Proof.
  intros Hnext.
  assert (∀ y, y ∈ range_keys code (adjacency_map g !!! c) ↔ next = Some y)
    as Hmem.
  { intros y. by rewrite elem_of_range_keys, adjacency_map_entry. }
  destruct next as [n|]; simpl.
  - apply list_singleton_of; [apply NoDup_range_keys|].
    intros y. rewrite Hmem. naive_solver.
  - apply list_nil_of. intros y. by rewrite Hmem.
Qed.

(** A run of [DFS] along a line of stops, each with the next as its one
    successor: if it returns no error it has added the stops from where it
    stands to the end, in their order. *)
Lemma DFS_loop_itinerary g stops sched fuel j i c acc g' r :
  built g → NoDup stops →
  (∀ i c y, stops !! i = Some c → has_edge g c y ↔ stops !! S i = Some y) →
  stops !! i = Some c →
  DFS_loop fuel sched j (adjacency_map g) collect [c]
    (list_to_set (take i stops)) acc g = (g', (r, Ok tt)) →
  r = acc ++ drop i stops.
Proof.
  intros Hbuilt Hnodup Hnext. revert j i c acc.
  induction fuel as [|fuel IH]; intros j i c acc Hc; [done|].
  cbn [DFS_loop]. rewrite decide_False; cycle 1.
  { rewrite elem_of_list_to_set. intros [i' Hi']%list_elem_of_lookup.
    apply lookup_take_Some in Hi' as [Hi' Hlt].
    pose proof (NoDup_lookup _ _ _ _ Hnodup Hi' Hc). lia. }
  rewrite Vertex_run. destruct (vertices (store g) !! c) as [value|] eqn:Hv; [|done].
  unfold collect at 1.
  rewrite (range_keys_successor g _ c (stops !! S i)) by (intros y; by apply Hnext).
  assert ({[c]} ∪ list_to_set (take i stops)
          = (list_to_set (take (S i) stops) : gset string)) as ->.
  { rewrite (take_S_r _ _ c Hc), list_to_set_app_L. set_solver. }
  rewrite (built_values g Hbuilt c value Hv).
  rewrite <- (take_drop_middle stops i c Hc) at 3.
  rewrite drop_app_length'; [|by rewrite length_take_le by (apply lookup_lt_Some in Hc; lia)].
  destruct (stops !! S i) as [n|] eqn:Hn; simpl.
  - intros Hrun. rewrite (IH _ _ _ _ Hn Hrun).
    by rewrite <- app_assoc.
  - apply lookup_ge_None in Hn. rewrite (drop_ge stops (S i)) by done.
    destruct fuel; [done|]. simpl. by intros [= _ <-].
Qed.

Lemma walk_itinerary g stops sched i c :
  built g → NoDup stops →
  (∀ i c y, stops !! i = Some c → has_edge g c y ↔ stops !! S i = Some y) →
  stops !! i = Some c → has_vertex g c →
  walk sched c g = drop i stops.
Proof.
  intros Hbuilt Hnodup Hnext Hc Hv.
  destruct (DFS_run g sched c Hbuilt Hv) as (Hrun & _).
  revert Hrun. unfold DFS.
  rewrite AdjacencyMap_run by apply (built_sources g Hbuilt).
  intros Hrun.
  assert (NoDup (drop i stops)) as Hnodup'.
  { rewrite <- (take_drop i stops) in Hnodup. by apply NoDup_app in Hnodup as (_ & _ & ?). }
  apply (DFS_loop_itinerary g (drop i stops) _ _ _ 0 c [] g) in Hrun;
    [by rewrite Hrun, drop_0|done|done| |].
  - intros i' c' y Hc'. rewrite lookup_drop in Hc'.
    rewrite lookup_drop, Nat.add_succ_r. by apply Hnext.
  - by rewrite lookup_drop, Nat.add_0_r.
Qed.

(** Along the legs of an itinerary that visits no stop twice one only
    moves forward. *)
Lemma tc_legs stops a b :
  NoDup stops → tc (flies (legs stops)) a b →
  ∃ i j, i < j ∧ stops !! i = Some a ∧ stops !! j = Some b.
Proof.
  intros Hnodup. induction 1 as [a b Hab|a b c Hab _ (i & j & Hlt & Hi & Hj)].
  - apply flies_legs in Hab as (i & Hi & Hj). exists i, (S i). split; [lia|done].
  - apply flies_legs in Hab as (i' & Hi' & Hj'). exists i', j.
    split; [|done]. pose proof (NoDup_lookup _ _ _ _ Hnodup Hi Hj'). lia.
Qed.

(** [calculate] on the legs of an itinerary. *)
Lemma calculate_legs ctx scheds stops segments :
  NoDup stops → 2 ≤ length stops →
  (∀ el, el ∈ segments ↔ el ∈ legs stops) →
  out_path (calculate ctx scheds segments) = stops
  ∧ out_err (calculate ctx scheds segments) = None
  ∧ ¬ circular segments.
Proof.
  intros Hnodup Hlen Hsame.
  assert (∀ x y, flies segments x y ↔ flies (legs stops) x y) as Hflies.
  { intros x y. apply Hsame. }
  assert (¬ circular segments) as Hline.
  { intros [a Ha]. apply (tc_mono _ (flies (legs stops))) in Ha;
      [|intros x y; apply Hflies].
    apply (tc_legs stops a a Hnodup) in Ha as (i & j & Hlt & Hi & Hj).
    pose proof (NoDup_lookup _ _ _ _ Hnodup Hi Hj). lia. }
  pose proof (steps_fresh segments) as Hfresh.
  destruct (steps fresh (sort_Slice less segments)) as [g [[]|err]] eqn:Hsteps;
    [|by destruct Hfresh as [_ ?]].
  destruct Hfresh as (Hbuilt & Hedges & _).
  assert (∀ i c y, stops !! i = Some c →
                   has_edge g c y ↔ stops !! S i = Some y) as Hnext.
  { intros i c y Hc. rewrite Hedges, Hflies, flies_legs. split.
    - intros (i' & Hi' & Hy). by rewrite (NoDup_lookup _ _ _ _ Hnodup Hc Hi').
    - intros Hy. by exists i. }
  destruct stops as [|first [|second stops]]; [simpl in Hlen; lia..|].
  assert ((first, second) ∈ segments) as Hfirst by (apply Hsame; by left).
  assert (segments ≠ []) as Hsome by (intros ->; by apply elem_of_nil in Hfirst).
  destruct (steps_spec fresh _ g (Ok tt) New_built Hsteps) as (_ & _ & Hin).
  assert (∀ el, el ∈ segments → has_vertex g el.1) as Hstart.
  { intros el Hel. apply (Hin el). by rewrite sort_Slice_Permutation. }
  destruct (calculate_choice ctx scheds segments g Hsteps Hsome)
    as (j & el & sched & Hel & Hpath & Hmax & _).
  apply list_elem_of_lookup_2 in Hel. rewrite sort_Slice_Permutation in Hel.
  assert (out_err (calculate ctx scheds segments) = None) as Herr.
  { rewrite calculate_run. cbv zeta. by rewrite Hsteps. }
  split; [|done]. rewrite Hpath.
  pose proof (proj1 (Hflies el.1 el.2)) as Hleg. unfold flies in Hleg at 1.
  destruct el as [a b]. simpl in *.
  apply flies_legs in Hleg as (i & Hi & _); [|done].
  rewrite (walk_itinerary g _ sched i a Hbuilt Hnodup Hnext Hi (Hstart _ Hel)).
  specialize (Hmax (first, second) sched Hfirst). simpl in Hmax.
  rewrite (walk_itinerary g _ sched 0 first Hbuilt Hnodup Hnext eq_refl
             (Hstart _ Hfirst)) in Hmax.
  rewrite (walk_itinerary g _ sched i a Hbuilt Hnodup Hnext Hi (Hstart _ Hel))
    in Hmax.
  rewrite drop_0, length_drop in Hmax. apply lookup_lt_Some in Hi.
  assert (i = 0) as -> by lia. by rewrite drop_0.
Qed.

(** X15.  Let the segments be the legs of an itinerary that visits no
    airport twice, given in any order and each any number of times.  Then
    [calculate] returns the stops of the itinerary in the order they are
    visited, and no error. *)
Theorem calculate_itinerary ctx scheds stops segments :
  NoDup stops → 2 ≤ length stops →
  (∀ el, el ∈ segments ↔ el ∈ legs stops) →
  let out := calculate ctx scheds segments in
  out_path out = stops ∧ out_err out = None.
Proof.
  intros Hnodup Hlen Hsame.
  by destruct (calculate_legs ctx scheds stops segments Hnodup Hlen Hsame)
    as (? & ? & _).
Qed.

(** X16.  The order in which the caller lists the segments has no part in
    the result.  With the maps walked in the same orders the two outcomes
    are the same; with the maps walked in any orders the errors are the
    same and the paths start at the same airport and hold the same
    airports. *)
Theorem calculate_any_order ctx ctx' scheds scheds' segments segments' :
  segments' ≡ₚ segments →
  calculate ctx' scheds segments' = calculate ctx scheds segments
  ∧ out_err (calculate ctx' scheds' segments')
    = out_err (calculate ctx scheds segments)
  ∧ out_path (calculate ctx' scheds' segments')
    ≡ₚ out_path (calculate ctx scheds segments)
  ∧ head (out_path (calculate ctx' scheds' segments'))
    = head (out_path (calculate ctx scheds segments)).
Proof.
  intros Hperm. split.
  - rewrite !calculate_run. cbv zeta.
    assert (sort_Slice less segments' = sort_Slice less segments) as ->; [|done].
    apply (sort_Slice_unique less less_asym _).
    + by rewrite sort_Slice_Permutation.
    + apply (sort_Slice_sorted less less_asym _).
  - destruct (calculate_related same_route ctx ctx' scheds scheds'
                segments segments') as (_ & Herr & Hroute & Hhead);
      [apply same_route_length| | |done].
    + intros g start n n' Hbuilt Hstart. by apply walk_same_route.
    + intros el. by rewrite Hperm.
Qed.

End itinerary.

(** ** Search *)

Section search.
Implicit Types (scheds : nat → Sched) (segments : list segment)
  (stops : list string) (ReadAll : string + string)
  (Unmarshal : string → option (list segment)).

(** What [Search] answers once it has segments to hand to
    [calculate]. *)
Lemma Search_segments scheds body Unmarshal segments :
  body ≠ "" → Unmarshal body = Some segments → segments ≠ [] →
  (circular segments
   ∧ Search scheds (inl body) Unmarshal
     = mkReply StatusBadRequest (ErrorResponse "edge would create a cycle"))
  ∨ (¬ circular segments
     ∧ ∃ first rest,
         out_path (calculate ctx_live scheds segments) = first :: rest
         ∧ rest ≠ [] ∧ List.last rest first ≠ first
         ∧ Search scheds (inl body) Unmarshal
           = mkReply StatusOK
               (SearchResponse [first; List.last rest first] (first :: rest))).
Proof.
  intros Hbody Hdecode Hsome. unfold Search.
  rewrite bool_decide_eq_false_2 by (by destruct body).
  rewrite Hdecode, bool_decide_eq_false_2 by (by destruct segments).
  cbv zeta. pose proof (steps_fresh segments) as Hfresh.
  destruct (out_err (calculate ctx_live scheds segments)) as [err|] eqn:Herr.
  - left. revert Herr. rewrite calculate_run. cbv zeta.
    destruct (steps fresh (sort_Slice less segments)) as [g [[]|err']]; [done|].
    destruct Hfresh as [-> Hcircular]. by intros [= <-].
  - right. destruct (calculate_path ctx_live scheds segments Herr Hsome)
      as (el & Hel & Hhead & Hnodup & Hmem).
    assert (¬ circular segments) as Hline.
    { revert Herr. rewrite calculate_run. cbv zeta.
      destruct (steps fresh (sort_Slice less segments)) as [g [[]|err']]; [|done].
      by destruct Hfresh as (_ & _ & ?). }
    split; [done|].
    assert (el.2 ∈ out_path (calculate ctx_live scheds segments)) as Hsecond.
    { apply Hmem. apply rtc_once. unfold flies. by destruct el. }
    assert (el.1 ≠ el.2) as Hne.
    { intros Heq. apply Hline. exists el.1. apply tc_once. unfold flies.
      rewrite Heq at 2. by destruct el. }
    destruct (out_path (calculate ctx_live scheds segments)) as [|first rest];
      [done|].
    injection Hhead as ->. exists el.1, rest. split; [done|].
    apply NoDup_cons in Hnodup as [Hfirst _].
    assert (rest ≠ []) as Hrest.
    { intros ->. apply list_elem_of_singleton in Hsecond. congruence. }
    split; [done|]. split; [|done]. intros Hlast. apply Hfirst.
    rewrite <- Hlast at 1. clear -Hrest.
    induction rest as [|x [|y rest] IH]; [done|by left|].
    right. apply IH. done.
Qed.


(** X18.  A body that decodes to the legs of an itinerary which visits no
    airport twice, in any order and each any number of times, is answered
    with status 200, the stops in the order they are visited as the full
    path, and the first and the last stop as the short path. *)
Theorem Search_itinerary scheds body Unmarshal segments stops :
  body ≠ "" → Unmarshal body = Some segments →
  NoDup stops → 2 ≤ length stops →
  (∀ el, el ∈ segments ↔ el ∈ legs stops) →
  ∃ first rest,
    stops = first :: rest
    ∧ Search scheds (inl body) Unmarshal
      = mkReply StatusOK (SearchResponse [first; List.last rest first] stops).
Proof.
  intros Hbody Hdecode Hnodup Hlen Hsame.
  destruct (calculate_legs ctx_live scheds stops segments Hnodup Hlen Hsame)
    as (Hpath & Herr & Hline).
  assert (segments ≠ []) as Hsome.
  { destruct stops as [|first [|second stops]]; [simpl in Hlen; lia..|].
    intros ->. apply (elem_of_nil (first, second)), Hsame. by left. }
  destruct (Search_segments scheds body Unmarshal segments Hbody Hdecode Hsome)
    as [[Hcircular _]|(_ & first & rest & Hpath' & _ & _ & ->)]; [done|].
  exists first, rest. rewrite Hpath in Hpath'. by rewrite Hpath'.
Qed.

End search.

(** ** The order of the sort *)

(** X19.  The comparator [calculate] hands to [sort.Slice] is a strict
    total order of the segments: nothing is less than itself, less is
    transitive, and of two different segments one is less than the other.
    So a slice has one sorted arrangement only, and what [sort.Slice]
    leaves does not depend on how it sorts. *)
Theorem less_strict_total :
  (∀ a, less a a = false)
  ∧ (∀ a b c, less a b = true → less b c = true → less a c = true)
  ∧ (∀ a b, a ≠ b → less a b = true ∨ less b a = true)
  ∧ (∀ segments sorted,
       sorted ≡ₚ segments → Sorted (λ a b, less b a = false) sorted →
       sorted = sort_Slice less segments).
Proof.
  split.
  { intros a. destruct (less a a) eqn:Ha; [|done]. by rewrite (less_asym a a Ha) in Ha. }
  split; [apply less_trans|]. split.
  { intros a b Hne. destruct (less a b) eqn:Hab; [by left|].
    destruct (less b a) eqn:Hba; [by right|]. by destruct (Hne (less_trichotomy a b Hab Hba)). }
  intros segments sorted Hperm Hsorted.
  by apply (sort_Slice_unique less less_asym _).
Qed.

(** ** Instances *)

Lemma AddEdge_then_Edge_witness :
  let d := run_ops [OpAddVertex "A"; OpAddVertex "B"]
             (New StringHash [Directed]) in
  AddEdge in_order "A" "B" d = (commit d "A" "B", Ok tt)
  ∧ ∀ sched, AddEdge sched "A" "B" (commit d "A" "B")
             = (commit d "A" "B", Err ErrEdgeAlreadyExists).
Proof.
  cbv zeta.
  assert (AddEdge in_order "A" "B"
            (run_ops [OpAddVertex "A"; OpAddVertex "B"] (New StringHash [Directed]))
          = (commit (run_ops [OpAddVertex "A"; OpAddVertex "B"]
                       (New StringHash [Directed])) "A" "B", Ok tt)) as Hadd.
  { vm_compute. reflexivity. }
  split; [exact Hadd|].
  apply (AddEdge_then_Edge _ in_order "A" "B" _ Hadd).
Defined.

Lemma AddEdge_then_RemoveEdge_witness :
  let d := run_ops [OpAddVertex "A"; OpAddVertex "B"]
             (New StringHash [Directed]) in
  AddEdge in_order "A" "B" d = (commit d "A" "B", Ok tt)
  ∧ RemoveEdge "A" "B" (commit d "A" "B") = (d, Ok tt).
Proof.
  cbv zeta.
  assert (AddEdge in_order "A" "B"
            (run_ops [OpAddVertex "A"; OpAddVertex "B"] (New StringHash [Directed]))
          = (commit (run_ops [OpAddVertex "A"; OpAddVertex "B"]
                       (New StringHash [Directed])) "A" "B", Ok tt)) as Hadd.
  { vm_compute. reflexivity. }
  split; [exact Hadd|].
  apply (AddEdge_then_RemoveEdge _ in_order "A" "B" _ Hadd).
Defined.

Lemma AddEdge_without_PreventCycles_witness :
  let d := run_ops [OpAddVertex "A"] (New StringHash [Directed; Acyclic]) in
  IsAcyclic (traits d) = true
  ∧ AddEdge in_order "A" "A" d = (commit d "A" "A", Ok tt)
  ∧ path (commit d "A" "A") "A" "A".
Proof.
  cbv zeta. split; [reflexivity|].
  destruct (AddEdge_without_PreventCycles
              (run_ops [OpAddVertex "A"] (New StringHash [Directed; Acyclic]))
              in_order "A" "A") as [Hadd Hcycle].
  - reflexivity.
  - exists "A". vm_compute. reflexivity.
  - exists "A". vm_compute. reflexivity.
  - vm_compute. reflexivity.
  - split; [exact Hadd|]. apply Hcycle. by left.
Defined.

Lemma CreatesCycle_would_close_witness :
  let d := run_ops two_airports (New StringHash [Directed; PreventCyclesOpt]) in
  acyclic d
  ∧ ∃ b, CreatesCycle in_order "B" "A" d = (d, Ok b)
         ∧ (b = true ↔ ¬ acyclic (commit d "B" "A")).
Proof.
  cbv zeta.
  assert (acyclic (run_ops two_airports
                     (New StringHash [Directed; PreventCyclesOpt]))) as Hacyclic.
  { apply safe_acyclic, run_ops_safe, New_safe. reflexivity. }
  split; [exact Hacyclic|].
  apply (CreatesCycle_would_close _ in_order "B" "A" Hacyclic).
  - exists "B". vm_compute. reflexivity.
  - exists "A". vm_compute. reflexivity.
  - vm_compute. reflexivity.
Defined.

Lemma traits_of_options_witness :
  let options := [Directed; PreventCyclesOpt] in
  Forall (λ option, option = Directed ∨ option = Acyclic
                    ∨ option = PreventCyclesOpt) options
  ∧ IsAcyclic (traits (New StringHash options)) = true.
Proof.
  cbv zeta.
  assert (Forall (λ option, option = Directed ∨ option = Acyclic
                            ∨ option = PreventCyclesOpt)
            [Directed; PreventCyclesOpt]) as Hall.
  { apply List.Forall_cons; [by left|].
    apply List.Forall_cons; [right; by right|]. apply List.Forall_nil. }
  split; [exact Hall|].
  destruct (traits_of_options StringHash newMemoryStore
              [Directed; PreventCyclesOpt] Hall) as (_ & _ & Hacyclic & _).
  apply Hacyclic. right. apply elem_of_cons. right. apply elem_of_cons. by left.
Defined.

Lemma calculate_path_reaches_witness :
  let segments := [("ATL", "EWR"); ("SFO", "ATL")] in
  out_err (calculate ctx_live ordered segments) = None
  ∧ ∃ el, el ∈ segments
          ∧ head (out_path (calculate ctx_live ordered segments)) = Some el.1
          ∧ NoDup (out_path (calculate ctx_live ordered segments))
          ∧ (∀ k, k ∈ out_path (calculate ctx_live ordered segments)
                  ↔ reaches segments el.1 k).
Proof.
  cbv zeta.
  assert (out_err (calculate ctx_live ordered [("ATL", "EWR"); ("SFO", "ATL")])
          = None) as Herr.
  { vm_compute. reflexivity. }
  split; [exact Herr|].
  apply (calculate_path_reaches ctx_live ordered _ Herr). discriminate.
Defined.

Lemma calculate_start_witness :
  let segments := [("IND", "FDF"); ("DAD", "EED")] in
  out_err (calculate ctx_live ordered segments) = None
  ∧ length ["IND"; "FDF"] ≤ length (out_path (calculate ctx_live ordered segments)).
Proof.
  cbv zeta.
  assert (out_err (calculate ctx_live ordered [("IND", "FDF"); ("DAD", "EED")])
          = None) as Herr.
  { vm_compute. reflexivity. }
  split; [exact Herr|].
  apply (calculate_start ctx_live ordered [("IND", "FDF"); ("DAD", "EED")]
           ("IND", "FDF") ["IND"; "FDF"] Herr).
  - by left.
  - apply NoDup_cons. split; [|apply NoDup_singleton].
    intros Hin. apply list_elem_of_singleton in Hin. discriminate.
  - intros k Hk. apply elem_of_cons in Hk as [->|Hk]; [apply rtc_refl|].
    apply list_elem_of_singleton in Hk as ->. apply rtc_once. by left.
Defined.

Lemma calculate_itinerary_witness :
  let stops := ["SFO"; "ATL"; "GSO"; "IND"; "EWR"] in
  let segments := [("IND", "EWR"); ("SFO", "ATL"); ("SFO", "ATL");
                   ("GSO", "IND"); ("ATL", "GSO")] in
  (∀ el, el ∈ segments ↔ el ∈ legs stops)
  ∧ out_path (calculate ctx_live ordered segments) = stops.
Proof.
  cbv zeta.
  assert (∀ el, el ∈ [("IND", "EWR"); ("SFO", "ATL"); ("SFO", "ATL");
                      ("GSO", "IND"); ("ATL", "GSO")]
                ↔ el ∈ legs ["SFO"; "ATL"; "GSO"; "IND"; "EWR"]) as Hsame.
  { intros el. unfold legs. simpl. rewrite !elem_of_cons, !elem_of_nil. tauto. }
  split; [exact Hsame|].
  apply (calculate_itinerary ctx_live ordered _ _); [|simpl; lia|exact Hsame].
  apply (bool_decide_eq_true_1 (NoDup _)). vm_compute. reflexivity.
Defined.

Lemma calculate_any_order_witness :
  [("SFO", "ATL"); ("ATL", "EWR")] ≡ₚ [("ATL", "EWR"); ("SFO", "ATL")]
  ∧ calculate ctx_live ordered [("SFO", "ATL"); ("ATL", "EWR")]
    = calculate ctx_live ordered [("ATL", "EWR"); ("SFO", "ATL")].
Proof.
  assert ([("SFO", "ATL"); ("ATL", "EWR")] ≡ₚ [("ATL", "EWR"); ("SFO", "ATL")])
    as Hperm by apply Permutation_swap.
  split; [exact Hperm|].
  apply (calculate_any_order ctx_live ctx_live ordered ordered _ _ Hperm).
Defined.

Lemma Search_itinerary_witness :
  let stops := ["SFO"; "ATL"; "EWR"] in
  let segments := [("ATL", "EWR"); ("SFO", "ATL")] in
  (∀ el, el ∈ segments ↔ el ∈ legs stops)
  ∧ ∃ first rest,
      stops = first :: rest
      ∧ Search ordered (inl "body") (λ _, Some segments)
        = mkReply StatusOK (SearchResponse [first; List.last rest first] stops).
Proof.
  cbv zeta.
  assert (∀ el, el ∈ [("ATL", "EWR"); ("SFO", "ATL")]
                ↔ el ∈ legs ["SFO"; "ATL"; "EWR"]) as Hsame.
  { intros el. unfold legs. simpl. rewrite !elem_of_cons, !elem_of_nil. tauto. }
  split; [exact Hsame|].
  apply (Search_itinerary ordered "body"
           (λ _, Some [("ATL", "EWR"); ("SFO", "ATL")])
           [("ATL", "EWR"); ("SFO", "ATL")] ["SFO"; "ATL"; "EWR"]);
    [discriminate|reflexivity| |simpl; lia|exact Hsame].
  apply (bool_decide_eq_true_1 (NoDup _)). vm_compute. reflexivity.
Defined.
